(** * tcpdog server: Kafka ingress consumer and configuration resolution

    A shallow embedding of [ingress/kafka/kafka.go] (consumer-group start-up,
    the hand-off/acknowledge loop of the claim handler, the supervising retry
    loop, the goroutine that drains the errors of the session and the decode
    workers) and of the parts of package [config] that the ingress and the
    configuration tests rely on.

    Go values are modelled as follows: [string] as [string], [[]byte] as
    [list Byte.byte], [int] as [Z], [map[string]T] as [gmap string T],
    [interface{}] as the sum type [config.Value] (configuration values) or
    [kafka.Record_] (decoded events), a [(T, error)] result as [result T] or
    as a pair with an [option error], goroutines as program counters inside
    one system state that a scheduler advances one statement at a time.

    Package [config] itself is not among the sources, only its tests are:
    its functions are modelled from the specification and marked as such. *)

From Stdlib Require Import ZArith.
From stdpp Require Import base tactics option list strings gmap.

(** ** Go preliminaries *)

(** A non-nil value of Go's [error] interface. *)
Inductive error : Set :=
| Err (msg : string).

(** A Go result pair [(T, error)] where exactly one side is meaningful. *)
Inductive result (A : Type) : Type :=
| Ok (a : A)
| Fail (e : error).
Arguments Ok {A} a.
Arguments Fail {A} e.

#[global] Instance result_ret : MRet result := fun _ a => Ok a.
#[global] Instance result_bind : MBind result := fun _ _ f r =>
  match r with
  | Ok a => f a
  | Fail e => Fail e
  end.

Definition is_Ok {A} (r : result A) : bool :=
  match r with Ok _ => true | Fail _ => false end.

Definition bytes : Set := list Byte.byte.

(** ** Package [config] *)

(** Modelled from the spec: the struct types of this package are declared in
    files that are not among the sources. Their fields are those of the
    spec's data model, under the names with which the tests of the package
    and the ingress read and write them. A field [F] of a struct [S] is
    named [S_F], since several structs of the package share field names. *)
Module config.

(** A dynamically typed Go value as it appears in generic configuration
    ([interface{}]): scalars, slices, string-keyed maps, and a channel, which
    is the non-mapping value the tests feed to [Transform]. *)
#[warnings="-register-all"]
Inductive Value : Set :=
| VNil
| VBool (b : bool)
| VInt (n : Z)
| VString (s : string)
| VSlice (vs : list Value)
| VMap (kvs : list (string * Value))
| VChan.

(** The diagnostic sink attached to a configuration ([*zap.Logger]). *)
Inductive Logger : Set :=
| DefaultLogger
| CustomLogger (name : string).

(** [Ingress], [Ingestion] and [Geo] have the same shape: an endpoint's type
    tag and its opaque settings. The zero value has an empty tag and no
    settings. *)
Record Ingress : Set := {
  Ingress_Type : string;
  Ingress_Config : gmap string Value;
}.

#[global] Instance Ingress_inhabited : Inhabited Ingress :=
  populate {| Ingress_Type := ""; Ingress_Config := ∅ |}.

Record Flow : Set := {
  Flow_Ingress : string;
  Flow_Ingestion : string;
  Flow_Serialization : string;
}.

Record ServerConfig : Set := {
  ServerConfig_Ingress : gmap string Ingress;
  ServerConfig_Ingestion : gmap string Ingress;
  ServerConfig_Geo : Ingress;
  ServerConfig_Flow : list Flow;
  ServerConfig_logger : option Logger;
}.

(** Modelled from the spec: a cancellable execution context to which a
    server configuration has been attached ([ServerConfig.WithContext]). *)
Record Context : Set := {
  ctx_server : ServerConfig;
  ctx_done : bool;
}.

(** Modelled from the spec: [FromContextServer] is not in the sources; the
    configuration attached to a context is "retrievable by any downstream
    component", and [TestConfigContextLoggerServer] gets back the very
    configuration it attached. *)
Definition FromContextServer (ctx : Context) : ServerConfig := ctx_server ctx.

(** Go's [m[name]]: the stored value, or the zero value for a missing key. *)
Definition index (m : gmap string Ingress) (name : string) : Ingress :=
  default inhabitant (m !! name).

(** *** The agent's configuration *)

Record Field : Set := {
  Field_Name : string;
}.

Record Tracepoint : Set := {
  Tracepoint_Name : string;
  Tracepoint_Fields : string;
  Tracepoint_TCPState : string;
  Tracepoint_Sample : Z;
  Tracepoint_Workers : Z;
  Tracepoint_INet : list Z;
  Tracepoint_Egress : string;
}.

Record Config : Set := {
  Config_Tracepoints : list Tracepoint;
  Config_Fields : gmap string (list Field);
  Config_logger : option Logger;
}.

Definition GetDefaultLogger : Logger := DefaultLogger.

Definition default_workers (tp : Tracepoint) : Tracepoint :=
  if Z.eqb (Tracepoint_Workers tp) 0 then
    {| Tracepoint_Name := Tracepoint_Name tp;
       Tracepoint_Fields := Tracepoint_Fields tp;
       Tracepoint_TCPState := Tracepoint_TCPState tp;
       Tracepoint_Sample := Tracepoint_Sample tp;
       Tracepoint_Workers := 1;
       Tracepoint_INet := Tracepoint_INet tp;
       Tracepoint_Egress := Tracepoint_Egress tp |}
  else tp.

(** Modelled from the spec: [setDefault] is exercised by [TestSetDefault] and
    is not in the sources. It "fills unset numeric fields (worker count
    defaults to 1 if zero) and installs a default diagnostic sink if none is
    set"; the worker count is the [Workers] field of each tracepoint, as the
    test reads it. The Go function updates the configuration in place; here
    the updated configuration is returned. *)
Definition setDefault (c : Config) : Config :=
  {| Config_Tracepoints := default_workers <$> Config_Tracepoints c;
     Config_Fields := Config_Fields c;
     Config_logger :=
       match Config_logger c with
       | None => Some GetDefaultLogger
       | Some l => Some l
       end |}.

(** *** Generic mapping to typed shape *)

(** A typed shape: the fields of the target struct in declaration order,
    each with the value it holds. *)
Abbreviation Shape := (list (string * Value)).

Definition lower (c : Ascii.ascii) : Ascii.ascii :=
  let n := Ascii.nat_of_ascii c in
  if (65 <=? n)%nat && (n <=? 90)%nat then Ascii.ascii_of_nat (n + 32) else c.

Fixpoint fold_case (s : string) : string :=
  match s with
  | EmptyString => EmptyString
  | String c s' => String (lower c) (fold_case s')
  end.

(** A key of the source names a field of the target when they agree up to
    the case of their letters, as the keys ["foo"] and ["key"] name the
    fields [Foo] and [Key] in [TestTransform]. *)
Definition names (key field : string) : bool :=
  String.eqb (fold_case key) (fold_case field).

(** The value of the first key of the mapping that names the field. *)
Fixpoint find_field (field : string) (kvs : list (string * Value)) : option Value :=
  match kvs with
  | [] => None
  | (k, v) :: kvs' => if names k field then Some v else find_field field kvs'
  end.

Definition populate_fields (kvs : list (string * Value)) (target : Shape) : Shape :=
  (λ '(field, old), (field, default old (find_field field kvs))) <$> target.

Definition TransformError : error := Err "config: the source is not a mapping".

(** Modelled from the spec: [Transform] is exercised by [TestTransform] and
    is not in the sources. It "copies values from source into target's
    matching fields by name; fails with a TransformError if source is not a
    mapping-like container (e.g. a stream/channel value is rejected),
    leaving target unmodified on failure". The Go function writes through
    the target pointer; here the target as it is left is returned next to
    the error. *)
Definition Transform (source : Value) (target : Shape) : Shape * option error :=
  match source with
  | VMap kvs => (populate_fields kvs target, None)
  | _ => (target, Some TransformError)
  end.

(** *** Files *)

(** What a path of the host leads to: a configuration document as its parser
    reads it, a PEM certificate carrying a public key, a PEM private key
    (known by the public key it belongs to), or bytes that are none of
    these. The parsing of documents and of PEM data is outside the model. *)
Inductive File : Set :=
| Document (doc : Value)
| PEMCertificate (pub : string)
| PEMPrivateKey (pub : string)
| Garbage.

Abbreviation Files := (gmap string File).

(** *** The server's configuration *)

Definition ConfigError (msg : string) : error := Err msg.

Fixpoint assoc (key : string) (kvs : list (string * Value)) : option Value :=
  match kvs with
  | [] => None
  | (k, v) :: kvs' => if String.eqb k key then Some v else assoc key kvs'
  end.

(** A string-valued key of a document node; an absent key reads as the empty
    string. *)
Definition string_key (key : string) (kvs : list (string * Value)) : option string :=
  match assoc key kvs with
  | None => Some ""
  | Some (VString s) => Some s
  | Some _ => None
  end.

(** [{type, config}] *)
Definition read_endpoint (v : Value) : option Ingress :=
  match v with
  | VMap kvs =>
    t ← string_key "type" kvs;
    c ← match assoc "config" kvs with
         | None => Some ∅
         | Some (VMap settings) => Some (list_to_map settings)
         | Some _ => None
         end;
    Some {| Ingress_Type := t; Ingress_Config := c |}
  | _ => None
  end.

(** [{name: {type, config}}] *)
Definition read_endpoints (v : option Value) : option (gmap string Ingress) :=
  match v with
  | None => Some ∅
  | Some (VMap kvs) =>
    list_to_map <$> mapM (λ '(name, e), pair name <$> read_endpoint e) kvs
  | Some _ => None
  end.

(** [{ingress, ingestion, serialization}] *)
Definition read_flow (v : Value) : option Flow :=
  match v with
  | VMap kvs =>
    i ← string_key "ingress" kvs;
    g ← string_key "ingestion" kvs;
    z ← string_key "serialization" kvs;
    Some {| Flow_Ingress := i; Flow_Ingestion := g; Flow_Serialization := z |}
  | _ => None
  end.

Definition read_flows (v : option Value) : option (list Flow) :=
  match v with
  | None => Some []
  | Some (VSlice vs) => mapM read_flow vs
  | Some _ => None
  end.

(** The typed shape of a server document
    [{ingress, ingestion, geo, flow}]. *)
Definition read_server (doc : Value) : option ServerConfig :=
  match doc with
  | VMap kvs =>
    ingress ← read_endpoints (assoc "ingress" kvs);
    ingestion ← read_endpoints (assoc "ingestion" kvs);
    geo ← match assoc "geo" kvs with
           | None => Some inhabitant
           | Some v => read_endpoint v
           end;
    flow ← read_flows (assoc "flow" kvs);
    Some {| ServerConfig_Ingress := ingress; ServerConfig_Ingestion := ingestion;
            ServerConfig_Geo := geo; ServerConfig_Flow := flow;
            ServerConfig_logger := None |}
  | _ => None
  end.

(** Modelled from the spec: [loadServer] is exercised by [TestLoadServer]
    and is not in the sources. Like [Load], it "parses a configuration
    document into the typed [...] ServerConfiguration; fails with a
    ConfigError if the file is missing or malformed". *)
Definition loadServer (fs : Files) (file : string) : result ServerConfig :=
  match fs !! file with
  | Some (Document doc) =>
    match read_server doc with
    | Some cfg => Ok cfg
    | None => Fail (ConfigError "config: malformed document")
    end
  | Some _ => Fail (ConfigError "config: malformed document")
  | None => Fail (ConfigError "config: no such file")
  end.

Definition is_config_flag (arg : string) : bool :=
  String.eqb arg "-config" || String.eqb arg "--config".

(** The value of the configuration-file flag among the arguments that follow
    the program name. *)
Fixpoint config_flag (args : list string) : option string :=
  match args with
  | [] => None
  | arg :: rest =>
    if is_config_flag arg then head rest else config_flag rest
  end.

(** Modelled from the spec: [GetServer] is exercised by [TestGetServer] and
    is not in the sources. It is the "analogous resolution for
    ServerConfiguration, but a configuration-file flag is mandatory - server
    mode has no ad-hoc fallback; its absence is a fatal startup error"; as in
    [Get], the document named by the flag governs and the defaults, here the
    default diagnostic sink, are applied last. *)
Definition GetServer (fs : Files) (args : list string) (version : string)
    : result ServerConfig :=
  match config_flag (tail args) with
  | None => Fail (ConfigError "config: the configuration file is required")
  | Some file =>
    cfg ← loadServer fs file;
    mret {| ServerConfig_Ingress := ServerConfig_Ingress cfg;
            ServerConfig_Ingestion := ServerConfig_Ingestion cfg;
            ServerConfig_Geo := ServerConfig_Geo cfg;
            ServerConfig_Flow := ServerConfig_Flow cfg;
            ServerConfig_logger :=
              match ServerConfig_logger cfg with
              | None => Some GetDefaultLogger
              | Some l => Some l
              end |}
  end.

(** The server document that declares a configuration. *)
Definition endpoint_doc (e : Ingress) : Value :=
  VMap [("type", VString (Ingress_Type e));
        ("config", VMap (map_to_list (Ingress_Config e)))].

Definition endpoints_doc (m : gmap string Ingress) : Value :=
  VMap ((λ '(name, e), (name, endpoint_doc e)) <$> map_to_list m).

Definition flow_doc (f : Flow) : Value :=
  VMap [("ingress", VString (Flow_Ingress f));
        ("ingestion", VString (Flow_Ingestion f));
        ("serialization", VString (Flow_Serialization f))].

Definition server_doc (cfg : ServerConfig) : Value :=
  VMap [("ingress", endpoints_doc (ServerConfig_Ingress cfg));
        ("ingestion", endpoints_doc (ServerConfig_Ingestion cfg));
        ("geo", endpoint_doc (ServerConfig_Geo cfg));
        ("flow", VSlice (flow_doc <$> ServerConfig_Flow cfg))].

(** *** What a server document declares *)

(** The entry of [key] in a mapping of a document: [Some v] when the mapping
    has the entry [key: v], [None] when it has no entry for [key]. *)
Definition entry (kvs : list (string * Value)) (key : string) (v : option Value) : Prop :=
  match v with
  | Some v => (key, v) ∈ kvs
  | None => key ∉ kvs.*1
  end.

(** A key that holds a string declares it; a key left out declares the
    empty string. *)
Definition declares_string (kvs : list (string * Value)) (key s : string) : Prop :=
  entry kvs key (Some (VString s)) ∨ (entry kvs key None ∧ s = "").

(** An EndpointSpec: a mapping with each key once, whose [type] is the type
    of the endpoint and whose [config], a mapping with each key once, holds
    the settings of the endpoint and no other. *)
Definition declares_endpoint (v : Value) (e : Ingress) : Prop :=
  ∃ kvs, v = VMap kvs ∧ NoDup kvs.*1 ∧
    declares_string kvs "type" (Ingress_Type e) ∧
    ((∃ settings, entry kvs "config" (Some (VMap settings)) ∧ NoDup settings.*1 ∧
        ∀ k x, Ingress_Config e !! k = Some x ↔ (k, x) ∈ settings) ∨
     (entry kvs "config" None ∧ Ingress_Config e = ∅)).

(** A section of named endpoints: a mapping with each name once, every entry
    of which declares the endpoint of that name, and there is no endpoint
    under another name; a section left out declares no endpoint. *)
Definition declares_endpoints (kvs : list (string * Value)) (key : string)
    (m : gmap string Ingress) : Prop :=
  (∃ es, entry kvs key (Some (VMap es)) ∧ NoDup es.*1 ∧
     (∀ name v, (name, v) ∈ es → ∃ e, m !! name = Some e ∧ declares_endpoint v e) ∧
     (∀ name e, m !! name = Some e → name ∈ es.*1)) ∨
  (entry kvs key None ∧ m = ∅).

(** A FlowBinding. *)
Definition declares_flow (v : Value) (f : Flow) : Prop :=
  ∃ kvs, v = VMap kvs ∧ NoDup kvs.*1 ∧
    declares_string kvs "ingress" (Flow_Ingress f) ∧
    declares_string kvs "ingestion" (Flow_Ingestion f) ∧
    declares_string kvs "serialization" (Flow_Serialization f).

(** The spec's "valid server document" and the configuration it declares,
    written after the data model of the spec: "mapping from name to
    EndpointSpec for ingress sources, mapping from name to EndpointSpec for
    ingestion sinks, one geo-enrichment EndpointSpec, and an ordered list of
    FlowBinding". The document is a mapping with each key once; its entries
    are found by their keys, in whatever order they are written, and keys
    other than these four are of no account. Only the flow is ordered. *)
Definition declares (doc : Value) (cfg : ServerConfig) : Prop :=
  ∃ kvs, doc = VMap kvs ∧ NoDup kvs.*1 ∧
    declares_endpoints kvs "ingress" (ServerConfig_Ingress cfg) ∧
    declares_endpoints kvs "ingestion" (ServerConfig_Ingestion cfg) ∧
    ((∃ v, entry kvs "geo" (Some v) ∧ declares_endpoint v (ServerConfig_Geo cfg)) ∨
     (entry kvs "geo" None ∧
      ServerConfig_Geo cfg = {| Ingress_Type := ""; Ingress_Config := ∅ |})) ∧
    ((∃ vs, entry kvs "flow" (Some (VSlice vs)) ∧
        Forall2 declares_flow vs (ServerConfig_Flow cfg)) ∨
     (entry kvs "flow" None ∧ ServerConfig_Flow cfg = [])).

(** *** Transport security *)

Record TLSConfig : Set := {
  TLSConfig_Enable : bool;
  TLSConfig_CertFile : string;
  TLSConfig_KeyFile : string;
  TLSConfig_CAFile : string;
}.

(** The TLS settings that result ([*tls.Config]): the certificates to
    present and the trust anchors, each known by its public key. *)
Record TLSSettings : Set := {
  Certificates : list string;
  RootCAs : list string;
}.

Definition CredentialError (msg : string) : error := Err msg.

(** The certificate and its private key, "required as a pair": neither path,
    or both paths leading to a certificate and to the key that belongs to
    it. *)
Definition load_key_pair (fs : Files) (certFile keyFile : string) : result (list string) :=
  if String.eqb certFile "" && String.eqb keyFile "" then Ok []
  else if String.eqb certFile "" || String.eqb keyFile "" then
    Fail (CredentialError "tls: certificate and key are required as a pair")
  else
    match fs !! certFile, fs !! keyFile with
    | Some (PEMCertificate pub), Some (PEMPrivateKey pub') =>
      if String.eqb pub pub' then Ok [pub]
      else Fail (CredentialError "tls: private key does not match public key")
    | _, _ => Fail (CredentialError "tls: failed to load the key pair")
    end.

Definition load_trust_anchor (fs : Files) (caFile : string) : result (list string) :=
  match fs !! caFile with
  | Some (PEMCertificate pub) => Ok [pub]
  | Some _ => Fail (CredentialError "tls: invalid trust anchor")
  | None => Fail (CredentialError "tls: unreadable trust anchor")
  end.

(** Modelled from the spec: [GetTLS] is exercised by [TestGetTLSCreds] and is
    not in the sources. It "loads PEM-encoded certificate and private key
    (required as a pair) and trust-anchor material; fails if the
    trust-anchor path is unreadable/invalid, or if a certificate path is
    given without its matching key (or vice versa)". *)
Definition GetTLS (fs : Files) (cfg : TLSConfig) : result TLSSettings :=
  certs ← load_key_pair fs (TLSConfig_CertFile cfg) (TLSConfig_KeyFile cfg);
  roots ← load_trust_anchor fs (TLSConfig_CAFile cfg);
  mret {| Certificates := certs; RootCAs := roots |}.

(** Transport credentials ([credentials.TransportCredentials]) wrap TLS
    settings. *)
Inductive TransportCredentials : Set :=
| NewTLS (settings : TLSSettings).

(** Modelled from the spec: [GetCreds] is exercised by [TestGetTLSCreds] and
    is not in the sources. It "wraps the TLS settings into credentials
    usable for securing an inbound or outbound channel; same failure modes as
    above". *)
Definition GetCreds (fs : Files) (cfg : TLSConfig) : result TransportCredentials :=
  settings ← GetTLS fs cfg;
  mret (NewTLS settings).

(** The document of [TestGetServer]. *)
Definition test_server_doc : Value :=
  VMap [("ingress", VMap [("grpc", VMap [("type", VString "grpc")])]);
        ("ingestion", VMap [("elasticsearch", VMap [("type", VString "elasticsearch")])]);
        ("geo", VMap [("type", VString "maxmind")]);
        ("flow", VSlice [VMap [("ingress", VString "grpc");
                               ("ingestion", VString "elasticsearch");
                               ("serialization", VString "spb")]])].

(** The configuration that [TestGetServer] expects of it. *)
Definition test_server : ServerConfig :=
  {| ServerConfig_Ingress :=
       {["grpc" := {| Ingress_Type := "grpc"; Ingress_Config := ∅ |}]};
     ServerConfig_Ingestion :=
       {["elasticsearch" := {| Ingress_Type := "elasticsearch"; Ingress_Config := ∅ |}]};
     ServerConfig_Geo := {| Ingress_Type := "maxmind"; Ingress_Config := ∅ |};
     ServerConfig_Flow :=
       [{| Flow_Ingress := "grpc"; Flow_Ingestion := "elasticsearch";
           Flow_Serialization := "spb" |}];
     ServerConfig_logger := None |}.

(** The same declarations written in another order at every level, with a
    setting for the geo enrichment and a key that the server does not
    read. *)
Definition reordered_server_doc : Value :=
  VMap [("flow", VSlice [VMap [("serialization", VString "spb");
                               ("ingress", VString "grpc");
                               ("ingestion", VString "elasticsearch")]]);
        ("version", VInt 2);
        ("geo", VMap [("config", VMap [("path", VString "/tmp/geo.mmdb")]);
                      ("type", VString "maxmind")]);
        ("ingestion", VMap [("elasticsearch", VMap [("type", VString "elasticsearch")])]);
        ("ingress", VMap [("grpc", VMap [("type", VString "grpc")])])].

Definition reordered_server : ServerConfig :=
  {| ServerConfig_Ingress :=
       {["grpc" := {| Ingress_Type := "grpc"; Ingress_Config := ∅ |}]};
     ServerConfig_Ingestion :=
       {["elasticsearch" := {| Ingress_Type := "elasticsearch"; Ingress_Config := ∅ |}]};
     ServerConfig_Geo :=
       {| Ingress_Type := "maxmind";
          Ingress_Config := {["path" := VString "/tmp/geo.mmdb"]} |};
     ServerConfig_Flow :=
       [{| Flow_Ingress := "grpc"; Flow_Ingestion := "elasticsearch";
           Flow_Serialization := "spb" |}];
     ServerConfig_logger := None |}.

End config.

(** ** Package [kafka] (ingress) *)

Module kafka.

(** Modelled from the spec: the struct [Config] of this package is declared
    in a file that is not among the sources. [Brokers], [Topic] and
    [Workers] are the fields that [Start] and [newConsumerGroup] read;
    [Group] is the group identity that the spec lists among the settings
    resolved from the endpoint. *)
Record Config : Set := {
  Brokers : list string;
  Topic : string;
  Group : string;
  Workers : Z;
}.

(** [sarama.ConsumerMessage], with the fields that identify a message and
    its payload. *)
Record Message : Set := {
  MsgTopic : string;
  Partition : Z;
  Offset : Z;
  Value : bytes;
}.

(** What lies outside this file on the side of the broker: the resolution of
    the endpoint settings into a [Config] and the construction of the sarama
    configuration (both in this package's configuration file), and the
    connection made by [sarama.NewConsumerGroup]. *)
Class Broker : Type := {
  kafkaConfig : gmap string config.Value -> Config;
  SaramaConfig : Type;
  saramaConfig : Config -> result SaramaConfig;
  (** the error of [sarama.NewConsumerGroup addrs groupID config], if any *)
  sarama_dial : list string -> string -> SaramaConfig -> option error;
}.

(** What lies outside this file on the side of the wire formats: the
    generated protobuf types, and the JSON and protobuf decoders. *)
Class Wire : Type := {
  FieldsSPB : Type;
  Fields : Type;
  (** [json.Unmarshal b &m] on [m = map[string]interface{}{}]: the map as it
      is left, and the error *)
  json_Unmarshal : bytes -> list (string * config.Value) * option error;
  (** [proto.Unmarshal b &p] on a zero [pb.FieldsSPB], resp. [pb.Fields] *)
  proto_Unmarshal_FieldsSPB : bytes -> FieldsSPB * option error;
  proto_Unmarshal_Fields : bytes -> Fields * option error;
}.

Section Ingress.
Context {B : Broker} {W : Wire}.

(** A [sarama.ConsumerGroup]: the session stays bound to the addresses, group
    identity and configuration it was opened with. *)
Record ConsumerGroup : Type := {
  addrs : list string;
  groupID : string;
  sconfig : SaramaConfig;
}.

Definition sarama_NewConsumerGroup (addrs : list string) (groupID : string)
    (config : SaramaConfig) : result ConsumerGroup :=
  match sarama_dial addrs groupID config with
  | Some err => Fail err
  | None => Ok {| addrs := addrs; groupID := groupID; sconfig := config |}
  end.

Record consumerGroup : Type := {
  group : ConsumerGroup;
  serialization : string;
}.

(** A [chan []byte] made with the given capacity. *)
Record ByteChan : Set := {
  capacity : nat;
}.

Record handler : Set := {
  ch : ByteChan;
}.

(** The caller's [chan interface{}], known by a name. *)
Definition OutChan : Set := string.

(** A decoded event, as sent on the output queue: the dynamic mapping of the
    json format, or one of the two protobuf schemas. *)
Inductive Record_ : Type :=
| RMap (m : list (string * config.Value))
| RFieldsSPB (p : FieldsSPB)
| RFields (p : Fields).

Definition Unmarshal : Type := bytes -> Record_ * option error.

Definition newConsumerGroup (kCfg : Config) : result consumerGroup :=
  sConfig ← saramaConfig kCfg;
  group ← sarama_NewConsumerGroup (Brokers kCfg) "tcpdog" sConfig;
  mret {| group := group; serialization := "" |}.

(** The goroutines that [Start] launches with [go]. *)
Inductive Task : Type :=
| ErrorDrain (g : ConsumerGroup)
| Supervisor (g : ConsumerGroup) (topics : list string) (h : handler)
| Worker (k : consumerGroup) (out : OutChan) (bCh : ByteChan).

(** The configuration that [Start] resolves for the named ingress, its
    [kCfg]. *)
Definition resolved (ctx : config.Context) (name : string) : Config :=
  kafkaConfig
    (config.Ingress_Config
       (config.index (config.ServerConfig_Ingress (config.FromContextServer ctx)) name)).

(** [Start]: the returned error and the goroutines launched, in order. *)
Definition Start (ctx : config.Context) (name ser : string) (out : OutChan)
    : option error * list Task :=
  let kCfg :=
    kafkaConfig
      (config.Ingress_Config
         (config.index (config.ServerConfig_Ingress (config.FromContextServer ctx)) name)) in
  match newConsumerGroup kCfg with
  | Fail err => (Some err, [])
  | Ok cg =>
    let cg := {| group := group cg; serialization := ser |} in
    let handler := {| ch := {| capacity := 1 |} |} in
    (None,
     ErrorDrain (group cg)
       :: Supervisor (group cg) [Topic kCfg] handler
       :: replicate (Z.to_nat (Workers kCfg)) (Worker cg out (ch handler)))
  end.

(** [getUnmarshal]: [None] is the nil function returned after the switch. *)
Definition getUnmarshal (ser : string) : option Unmarshal :=
  if String.eqb ser "json" then
    Some (fun b => let '(m, err) := json_Unmarshal b in (RMap m, err))
  else if String.eqb ser "spb" then
    Some (fun b => let '(p, err) := proto_Unmarshal_FieldsSPB b in (RFieldsSPB p, err))
  else if String.eqb ser "pb" then
    Some (fun b => let '(p, err) := proto_Unmarshal_Fields b in (RFields p, err))
  else None.

(** *** One iteration of the worker loop *)

(** What a worker does with one payload received from the decode queue. *)
Inductive Outcome : Type :=
| Forward (i : Record_)            (* ch <- i *)
| Dropped (err : error) (b : bytes) (* log.Println("marshal", err, string(b)); continue *)
| Panic.                           (* call of a nil function value *)

Definition worker_iter (unmarshal : option Unmarshal) (b : bytes) : Outcome :=
  match unmarshal with
  | None => Panic
  | Some f =>
    let '(i, err) := f b in
    match err with
    | Some e => Dropped e b
    | None => Forward i
    end
  end.

(** The worker loop over the payloads it receives, in order: everything the
    worker does until the stream ends or the goroutine panics. *)
Fixpoint worker (unmarshal : option Unmarshal) (bs : list bytes) : list Outcome :=
  match bs with
  | [] => []
  | b :: bs' =>
    match worker_iter unmarshal b with
    | Panic => [Panic]
    | o => o :: worker unmarshal bs'
    end
  end.

(** The records a run of the worker sent on the output queue. *)
Definition forwards (os : list Outcome) : list Record_ :=
  omap (fun o => match o with Forward i => Some i | _ => None end) os.

(** The lines a run of the worker logged. *)
Definition drops (os : list Outcome) : list (error * bytes) :=
  omap (fun o => match o with Dropped e b => Some (e, b) | _ => None end) os.

(** *** The supervising loop *)

(** The supervising goroutine [for { err := Consume(...); if err != nil
    { logger.Error(...) } }]: how many times it has called [Consume] and the
    errors it has logged. It is always inside a call of [Consume]. *)
Record SupState : Set := {
  consume_calls : nat;
  sup_logged : list error;
}.

(** Entering the loop makes the first call. *)
Definition sup_init : SupState := {| consume_calls := 1; sup_logged := [] |}.

(** The running call returns [r]: log an error, then call [Consume] again. *)
Definition sup_iter (s : SupState) (r : option error) : SupState :=
  {| consume_calls := S (consume_calls s);
     sup_logged :=
       match r with
       | Some err => sup_logged s ++ [err]
       | None => sup_logged s
       end |}.

(** The state of the loop after the given successive returns of [Consume]. *)
Definition supervise (rets : list (option error)) : SupState :=
  foldl sup_iter sup_init rets.

(** *** The running consumer: goroutines under a scheduler *)

(** Where one call of [ConsumeClaim] stands. *)
Inductive ClaimPc : Set :=
| AtRange                 (* for message := range claim.Messages() *)
| AtSend (m : Message)    (* h.ch <- message.Value *)
| AtMark (m : Message)    (* session.MarkMessage(message, "") *)
| Returned.               (* return nil *)

(** A call of [ConsumeClaim]: the messages its claim still delivers before
    the channel is closed, and the statement it is at. *)
Record ClaimRun : Set := {
  pending : list Message;
  claim_pc : ClaimPc;
}.

(** Where the goroutine that drains [group.Errors()] stands. *)
Inductive DrainPc : Set :=
| AtErrors             (* for err := range cg.group.Errors() *)
| AtLog (err : error). (* logger.Error("kafka", zap.Error(err)) *)

(** Where one worker goroutine stands. *)
Inductive WorkerPc : Type :=
| AtRecv                                  (* b := <-bCh *)
| AtForward (m : Message) (i : Record_).  (* ch <- i *)

(** A worker goroutine: the decoder it resolved on entry, the output queue
    it was given, and the statement it is at. *)
Record WorkerRun : Type := {
  unmarshal : option Unmarshal;
  out_chan : OutChan;
  worker_pc : WorkerPc;
}.

(** What the goroutines have done, in the order it happened. A payload in
    the decode queue keeps the message it came from, so that decoding and
    forwarding can be told apart per message; the workers read nothing of a
    message but its [Value]. *)
Inductive Obs : Type :=
| HandedOff (m : Message)
| Marked (m : Message)
| Decoded (m : Message) (i : Record_)
| DecodeFailed (m : Message) (err : error)
| Forwarded (out : OutChan) (m : Message) (i : Record_)
| LoggedKafka (err : error)
| Panicked.

Record Sys : Type := {
  supervisor : option SupState;
  drain : bool;             (* the draining goroutine is there *)
  drain_pc : DrainPc;
  errors : list error;      (* what the channel group.Errors() holds *)
  claims : list ClaimRun;
  queue_cap : nat;
  queue : list Message;
  workers : list WorkerRun;
  crashed : bool;
  trace : list Obs;
}.

Definition set_supervisor (st : SupState) (s : Sys) : Sys :=
  {| supervisor := Some st; drain := drain s; drain_pc := drain_pc s;
     errors := errors s; claims := claims s;
     queue_cap := queue_cap s; queue := queue s; workers := workers s;
     crashed := crashed s; trace := trace s |}.

Definition set_claims (cs : list ClaimRun) (s : Sys) : Sys :=
  {| supervisor := supervisor s; drain := drain s; drain_pc := drain_pc s;
     errors := errors s; claims := cs;
     queue_cap := queue_cap s; queue := queue s; workers := workers s;
     crashed := crashed s; trace := trace s |}.

Definition set_queue (q : list Message) (s : Sys) : Sys :=
  {| supervisor := supervisor s; drain := drain s; drain_pc := drain_pc s;
     errors := errors s; claims := claims s;
     queue_cap := queue_cap s; queue := q; workers := workers s;
     crashed := crashed s; trace := trace s |}.

Definition set_workers (ws : list WorkerRun) (s : Sys) : Sys :=
  {| supervisor := supervisor s; drain := drain s; drain_pc := drain_pc s;
     errors := errors s; claims := claims s;
     queue_cap := queue_cap s; queue := queue s; workers := ws;
     crashed := crashed s; trace := trace s |}.

Definition crash (s : Sys) : Sys :=
  {| supervisor := supervisor s; drain := drain s; drain_pc := drain_pc s;
     errors := errors s; claims := claims s;
     queue_cap := queue_cap s; queue := queue s; workers := workers s;
     crashed := true; trace := trace s |}.

Definition observe (o : Obs) (s : Sys) : Sys :=
  {| supervisor := supervisor s; drain := drain s; drain_pc := drain_pc s;
     errors := errors s; claims := claims s;
     queue_cap := queue_cap s; queue := queue s; workers := workers s;
     crashed := crashed s; trace := trace s ++ [o] |}.

Definition set_drain (pc : DrainPc) (errs : list error) (s : Sys) : Sys :=
  {| supervisor := supervisor s; drain := drain s; drain_pc := pc;
     errors := errs; claims := claims s;
     queue_cap := queue_cap s; queue := queue s; workers := workers s;
     crashed := crashed s; trace := trace s |}.

Definition at_pc (c : ClaimRun) (pc : ClaimPc) : ClaimRun :=
  {| pending := pending c; claim_pc := pc |}.

(** What the scheduler or the environment does next. *)
Inductive Action : Set :=
| ConsumeReturns (r : option error) (* the running call of Consume returns r *)
| SessionError (err : error)        (* the session sends err on group.Errors() *)
| ClaimStarts (ms : list Message)   (* the session calls ConsumeClaim on a claim *)
| ClaimStep (i : nat)               (* the i-th ConsumeClaim runs its statement *)
| WorkerStep (j : nat)              (* the j-th worker runs its statement *)
| DrainStep.                        (* the draining goroutine runs its statement *)

(** [ConsumeClaim], one statement at a time. A send blocks while the
    channel's buffer is full. *)
Definition claim_step (i : nat) (s : Sys) : option Sys :=
  c ← claims s !! i;
  match claim_pc c with
  | AtRange =>
    match pending c with
    | m :: rest =>
      Some (set_claims (<[i := {| pending := rest; claim_pc := AtSend m |}]> (claims s)) s)
    | [] => Some (set_claims (<[i := at_pc c Returned]> (claims s)) s)
    end
  | AtSend m =>
    if decide (length (queue s) < queue_cap s) then
      Some (observe (HandedOff m)
             (set_queue (queue s ++ [m])
               (set_claims (<[i := at_pc c (AtMark m)]> (claims s)) s)))
    else None
  | AtMark m =>
    Some (observe (Marked m) (set_claims (<[i := at_pc c AtRange]> (claims s)) s))
  | Returned => None
  end.

(** The body of the worker's [for] loop, one statement at a time. A receive
    blocks while the queue is empty; a panic takes the process down. *)
Definition worker_step (j : nat) (s : Sys) : option Sys :=
  w ← workers s !! j;
  match worker_pc w with
  | AtRecv =>
    match queue s with
    | [] => None
    | m :: q =>
      match worker_iter (unmarshal w) (Value m) with
      | Panic => Some (observe Panicked (crash (set_queue q s)))
      | Dropped err _ => Some (observe (DecodeFailed m err) (set_queue q s))
      | Forward i =>
        Some (observe (Decoded m i)
               (set_queue q
                 (set_workers
                    (<[j := {| unmarshal := unmarshal w; out_chan := out_chan w;
                               worker_pc := AtForward m i |}]> (workers s)) s)))
      end
    end
  | AtForward m i =>
    Some (observe (Forwarded (out_chan w) m i)
           (set_workers
              (<[j := {| unmarshal := unmarshal w; out_chan := out_chan w;
                         worker_pc := AtRecv |}]> (workers s)) s))
  end.

(** The goroutine [for err := range cg.group.Errors() { logger.Error(...) }],
    one statement at a time: it receives the error that has been longest in
    the channel, then logs it. A receive blocks while the channel is
    empty. *)
Definition drain_step (s : Sys) : option Sys :=
  match drain_pc s with
  | AtErrors =>
    match errors s with
    | [] => None
    | err :: rest => Some (set_drain (AtLog err) rest s)
    end
  | AtLog err => Some (observe (LoggedKafka err) (set_drain AtErrors (errors s) s))
  end.

(** One step of the system. The session sends its errors on a channel, on
    which the model puts no bound, and the draining goroutine takes them
    from there on steps of its own. A return of [Consume], the log line for
    its error and the next call are one step of the supervising goroutine,
    as in [sup_iter]: between them the goroutine touches nothing that
    another goroutine reads, and the step stands where the line is written.
    Where a return falls among the steps of the other goroutines is
    therefore not told by a run. *)
Definition exec (s : Sys) (a : Action) : option Sys :=
  if crashed s then None
  else
    match a with
    | ConsumeReturns r =>
      st ← supervisor s;
      let s' := set_supervisor (sup_iter st r) s in
      Some (match r with Some err => observe (LoggedKafka err) s' | None => s' end)
    | SessionError err =>
      if drain s then Some (set_drain (drain_pc s) (errors s ++ [err]) s) else None
    | ClaimStarts ms =>
      _ ← supervisor s;
      Some (set_claims (claims s ++ [{| pending := ms; claim_pc := AtRange |}]) s)
    | ClaimStep i => claim_step i s
    | WorkerStep j => worker_step j s
    | DrainStep => if drain s then drain_step s else None
    end.

Fixpoint run (s : Sys) (acts : list Action) : option Sys :=
  match acts with
  | [] => Some s
  | a :: acts' => s' ← exec s a; run s' acts'
  end.

(** No goroutine yet. *)
Definition idle : Sys :=
  {| supervisor := None; drain := false; drain_pc := AtErrors; errors := [];
     claims := []; queue_cap := 0; queue := []; workers := [];
     crashed := false; trace := [] |}.

(** A [go] statement of [Start] adds its goroutine to the system. *)
Definition launch (s : Sys) (t : Task) : Sys :=
  match t with
  | ErrorDrain _ =>
    {| supervisor := supervisor s; drain := true; drain_pc := AtErrors;
       errors := errors s; claims := claims s;
       queue_cap := queue_cap s; queue := queue s; workers := workers s;
       crashed := crashed s; trace := trace s |}
  | Supervisor _ _ h =>
    {| supervisor := Some sup_init; drain := drain s; drain_pc := drain_pc s;
       errors := errors s; claims := claims s;
       queue_cap := capacity (ch h); queue := queue s; workers := workers s;
       crashed := crashed s; trace := trace s |}
  | Worker k out bCh =>
    {| supervisor := supervisor s; drain := drain s; drain_pc := drain_pc s;
       errors := errors s; claims := claims s;
       queue_cap := capacity bCh; queue := queue s;
       workers := workers s ++ [{| unmarshal := getUnmarshal (serialization k);
                                   out_chan := out; worker_pc := AtRecv |}];
       crashed := crashed s; trace := trace s |}
  end.

Definition spawn (tasks : list Task) : Sys := foldl launch idle tasks.

(** Projections of a trace. *)
Definition handed_off (tr : list Obs) : list Message :=
  omap (fun o => match o with HandedOff m => Some m | _ => None end) tr.

Definition marked (tr : list Obs) : list Message :=
  omap (fun o => match o with Marked m => Some m | _ => None end) tr.

Definition sent (tr : list Obs) : list (OutChan * Record_) :=
  omap (fun o => match o with Forwarded out _ i => Some (out, i) | _ => None end) tr.

(** The messages whose handler stands at [MarkMessage]. *)
Definition at_mark (cs : list ClaimRun) : list Message :=
  omap (fun c => match claim_pc c with AtMark m => Some m | _ => None end) cs.

(** The message whose decoding or forwarding an observation completes. *)
Definition completes (o : Obs) : option Message :=
  match o with
  | Decoded m _ | DecodeFailed m _ | Forwarded _ m _ => Some m
  | _ => None
  end.

(** Every decoding and every forwarding in the trace comes after the mark of
    its message. *)
Definition marked_first (tr : list Obs) : Prop :=
  ∀ pre o post m, tr = pre ++ o :: post → completes o = Some m → Marked m ∈ pre.

(** The message a handler is about to mark, if it stands at [MarkMessage]. *)
Definition marking (c : ClaimRun) : list Message :=
  match claim_pc c with AtMark m => [m] | _ => [] end.

(** Hand-offs and marks balance: the messages handed to the decode queue are
    the marked ones together with those whose handler stands at
    [MarkMessage]. *)
Definition balanced (s : Sys) : Prop :=
  handed_off (trace s) ≡ₚ marked (trace s) ++ at_mark (claims s).

(** Whatever sits in the decode queue, is held by a worker, or has been
    decoded or forwarded, was handed off by a handler before. *)
Definition traced (s : Sys) : Prop :=
  (∀ m, m ∈ queue s → m ∈ handed_off (trace s)) ∧
  (∀ j w m i, workers s !! j = Some w → worker_pc w = AtForward m i →
     m ∈ handed_off (trace s)) ∧
  (∀ o m, o ∈ trace s → completes o = Some m → m ∈ handed_off (trace s)).

(** A system that [spawn] builds has done nothing yet. *)
Definition fresh (s : Sys) : Prop :=
  trace s = [] ∧ claims s = [] ∧ queue s = [] ∧ crashed s = false ∧
  Forall (λ w, worker_pc w = AtRecv) (workers s).

(** The successive returns of [Consume] among the actions of a run. *)
Definition returns (acts : list Action) : list (option error) :=
  omap (λ a, match a with ConsumeReturns r => Some r | _ => None end) acts.

(** *** Further projections of a run *)

(** The messages whose record was sent on the output queue. *)
Definition forwarded (tr : list Obs) : list Message :=
  omap (fun o => match o with Forwarded _ m _ => Some m | _ => None end) tr.

(** The messages whose payload a worker logged and dropped. *)
Definition rejected (tr : list Obs) : list Message :=
  omap (fun o => match o with DecodeFailed m _ => Some m | _ => None end) tr.

(** The lines [logger.Error("kafka", ...)] wrote. *)
Definition kafka_errors (tr : list Obs) : list error :=
  omap (fun o => match o with LoggedKafka err => Some err | _ => None end) tr.

(** The messages whose record a worker holds between decoding and sending. *)
Definition held (ws : list WorkerRun) : list Message :=
  omap (fun w => match worker_pc w with AtForward m _ => Some m | _ => None end) ws.

(** The errors that the session sent on [group.Errors()] during a run. *)
Definition arrived (acts : list Action) : list error :=
  omap (fun a => match a with SessionError err => Some err | _ => None end) acts.

(** The error that the draining goroutine has received and is about to
    log. *)
Definition logging (pc : DrainPc) : list error :=
  match pc with AtLog err => [err] | AtErrors => [] end.

(** [merged l1 l2 l]: the list [l] interleaves [l1] and [l2], each in its
    order. *)
Inductive merged {A : Type} : list A → list A → list A → Prop :=
| merged_nil : merged [] [] []
| merged_l x l1 l2 l : merged l1 l2 l → merged (x :: l1) l2 (x :: l)
| merged_r x l1 l2 l : merged l1 l2 l → merged l1 (x :: l2) (x :: l).

(** The claims that the session handed to [ConsumeClaim] during a run, each
    with the messages it delivers. *)
Definition claimed (acts : list Action) : list (list Message) :=
  omap (fun a => match a with ClaimStarts ms => Some ms | _ => None end) acts.

(** The message a handler is about to send, if it stands at the send. *)
Definition sending (c : ClaimRun) : list Message :=
  match claim_pc c with AtSend m => [m] | _ => [] end.

(** The messages of its claim that a handler has not marked yet: the one it
    is working on, then those still to come. *)
Definition owed (c : ClaimRun) : list Message :=
  marking c ++ sending c ++ pending c.

(** The schedule that serves one message to the end before the next one is
    taken: the handler takes, sends and marks it, then the first worker
    receives it and, when it decodes, forwards the record. *)
Definition serve (f : Unmarshal) (m : Message) : list Action :=
  [ClaimStep 0; ClaimStep 0; ClaimStep 0; WorkerStep 0]
  ++ match (f (Value m)).2 with
     | None => [WorkerStep 0]
     | Some _ => []
     end.

Definition in_turn (f : Unmarshal) (ms : list Message) : list Action :=
  ClaimStarts ms :: (ms ≫= serve f) ++ [ClaimStep 0].

(** What serving one message leaves in the trace. *)
Definition served (f : Unmarshal) (out : OutChan) (m : Message) : list Obs :=
  HandedOff m :: Marked m ::
  match f (Value m) with
  | (i, None) => [Decoded m i; Forwarded out m i]
  | (_, Some err) => [DecodeFailed m err]
  end.

(** The lines [log.Println("marshal", err, string(b))] wrote. *)
Definition dropped (tr : list Obs) : list (error * bytes) :=
  omap (fun o => match o with DecodeFailed m err => Some (err, Value m) | _ => None end) tr.

(** *** Invariants of a run *)

(** In a process that has not crashed, every payload handed to the decode
    queue is in one place: forwarded, dropped, held by a worker, or still
    in the queue. *)
Definition conserved (s : Sys) : Prop :=
  crashed s = false →
  handed_off (trace s)
  ≡ₚ forwarded (trace s) ++ rejected (trace s) ++ held (workers s) ++ queue s.

(** The decode queue holds no more than its capacity. *)
Definition bounded (s : Sys) : Prop := length (queue s) ≤ queue_cap s.

(** All workers run the decoder [u] and send on [out], and what the trace
    shows of decoding is what [u] computes. *)
Definition decoding (u : option Unmarshal) (out : OutChan) (s : Sys) : Prop :=
  (∀ j w, workers s !! j = Some w →
     unmarshal w = u ∧ out_chan w = out ∧
     ∀ m i, worker_pc w = AtForward m i → ∃ f, u = Some f ∧ f (Value m) = (i, None)) ∧
  (∀ o m i, Forwarded o m i ∈ trace s →
     o = out ∧ ∃ f, u = Some f ∧ f (Value m) = (i, None)) ∧
  (∀ m err, DecodeFailed m err ∈ trace s →
     ∃ f i, u = Some f ∧ f (Value m) = (i, Some err)) ∧
  (is_Some u → crashed s = false).

(** The handler [c] of a claim that delivers [ms] has taken a prefix of [ms]
    and owes the rest; the messages it handed off and the messages it marked
    appear in the trace in the order of the claim. *)
Definition in_order (tr : list Obs) (ms : list Message) (c : ClaimRun) : Prop :=
  ∃ done,
    ms = done ++ owed c ∧
    done ++ marking c `sublist_of` handed_off tr ∧
    done `sublist_of` marked tr.

(** The calls of [ConsumeClaim] are those the session made, each in order. *)
Definition ordered (acts : list Action) (s : Sys) : Prop :=
  length (claims s) = length (claimed acts) ∧
  ∀ i ms c, claimed acts !! i = Some ms → claims s !! i = Some c →
    in_order (trace s) ms c.

(** The errors of the session are on their way in the order of their
    arrival: those that arrived are those the draining goroutine has logged,
    then the one it is about to log, then those still in the channel; and the
    lines [logger.Error("kafka", ...)] interleave the lines of the
    supervising goroutine and those of the draining goroutine, each in its
    order. *)
Definition in_transit (acts : list Action) (s : Sys) : Prop :=
  ∃ drained,
    arrived acts = drained ++ logging (drain_pc s) ++ errors s ∧
    merged (from_option sup_logged [] (supervisor s)) drained (kafka_errors (trace s)).

(** The schedule that leaves the draining goroutine to itself until the
    channel is empty: one step to log the error it holds, then two steps,
    receive and log, for each error in the channel. *)
Definition flush (s : Sys) : list Action :=
  replicate (length (logging (drain_pc s)) + 2 * length (errors s)) DrainStep.

(** A system without workers that has not crashed: nothing has been decoded
    or sent. *)
Definition unmanned (s : Sys) : Prop :=
  workers s = [] ∧ crashed s = false ∧
  forwarded (trace s) = [] ∧ rejected (trace s) = [] ∧ sent (trace s) = [].

End Ingress.
End kafka.

(** ** Test doubles *)

(** Stand-ins for the collaborators, used to run the model on concrete
    inputs: settings are read by key with the defaults of a local broker, the
    sarama configuration is the resolved [Config] itself and is refused when
    the topic is empty, the brokers cannot be reached when no address is
    given, an empty payload is no JSON document, and a payload of a single
    byte is no protobuf message. *)
Module sample.
Import kafka.

Definition strings_of (v : config.Value) : list string :=
  match v with
  | config.VSlice vs =>
    omap (fun v => match v with config.VString s => Some s | _ => None end) vs
  | _ => []
  end.

Definition resolve (settings : gmap string config.Value) : Config :=
  {| Brokers :=
       match settings !! "brokers" with
       | Some v => strings_of v
       | None => ["localhost:9092"]
       end;
     Topic :=
       match settings !! "topic" with
       | Some (config.VString t) => t
       | _ => "tcpdog"
       end;
     Group :=
       match settings !! "group" with
       | Some (config.VString g) => g
       | _ => "tcpdog"
       end;
     Workers :=
       match settings !! "workers" with
       | Some (config.VInt n) => n
       | _ => 2%Z
       end |}.

Definition decode_json (b : bytes) : list (string * config.Value) * option error :=
  match b with
  | [] => ([], Some (Err "unexpected end of JSON input"))
  | _ :: _ => ([("raw", config.VString (String.string_of_list_byte b))], None)
  end.

Definition decode_proto (b : bytes) : bytes * option error :=
  match b with
  | [_] => ([], Some (Err "unexpected EOF"))
  | _ => (b, None)
  end.

Definition broker : Broker :=
  {| kafkaConfig := resolve;
     SaramaConfig := Config;
     saramaConfig c :=
       if String.eqb (Topic c) "" then Fail (Err "kafka: invalid configuration") else Ok c;
     sarama_dial addrs _ _ :=
       match addrs with
       | [] => Some (Err "kafka: client has run out of available brokers")
       | _ => None
       end |}.

Definition wire : Wire :=
  {| FieldsSPB := bytes;
     Fields := bytes;
     json_Unmarshal := decode_json;
     proto_Unmarshal_FieldsSPB := decode_proto;
     proto_Unmarshal_Fields := decode_proto |}.

Definition endpoint (brokers : list string) (group : string) (workers : Z) : config.Ingress :=
  {| config.Ingress_Type := "kafka";
     config.Ingress_Config :=
       <["brokers" := config.VSlice (config.VString <$> brokers)]>
       (<["topic" := config.VString "events"]>
       (<["group" := config.VString group]>
       (<["workers" := config.VInt workers]> ∅))) |}.

(** A server configuration with a reachable ingress ["kafka"] and an ingress
    ["offline"] that lists no broker. *)
Definition server : config.ServerConfig :=
  {| config.ServerConfig_Ingress :=
       <["kafka" := endpoint ["broker-1:9092"; "broker-2:9092"] "analytics" 2]>
       (<["offline" := endpoint [] "analytics" 2]> ∅);
     config.ServerConfig_Ingestion := ∅;
     config.ServerConfig_Geo := inhabitant;
     config.ServerConfig_Flow := [];
     config.ServerConfig_logger := Some config.DefaultLogger |}.

Definition ctx : config.Context :=
  {| config.ctx_server := server; config.ctx_done := false |}.

Definition msg (offset : Z) (payload : string) : Message :=
  {| MsgTopic := "events"; Partition := 0; Offset := offset;
     Value := String.list_byte_of_string payload |}.

(** What the ingress ["kafka"] resolves to, and the session opened for it. *)
Definition kCfg : Config :=
  {| Brokers := ["broker-1:9092"; "broker-2:9092"]; Topic := "events";
     Group := "analytics"; Workers := 2 |}.

Definition session : consumerGroup (B := broker) :=
  {| group := {| addrs := ["broker-1:9092"; "broker-2:9092"]; groupID := "tcpdog";
                 sconfig := kCfg : SaramaConfig (Broker := broker) |};
     serialization := "" |}.

(** The state a run ends in; [idle] stands for a run that gets stuck. *)
Definition outcome (tasks : list (Task (B := broker))) (acts : list Action)
    : Sys (W := wire) :=
  default idle (run (W := wire) (spawn (B := broker) (W := wire) tasks) acts).

(** A schedule in which the worker is quicker than the handler: the handler
    hands the payload off, the worker decodes and forwards it, and only then
    does the handler mark the message. *)
Definition worker_first : list Action :=
  [ClaimStarts [msg 0 "{}"];
   ClaimStep 0; ClaimStep 0;
   WorkerStep 0; WorkerStep 0;
   ClaimStep 0].

(** A schedule in which a payload that does not decode is handed off and
    dropped while its handler still stands at [MarkMessage]. *)
Definition rejected_then_marked : list Action :=
  [ClaimStarts [msg 7 ""];
   ClaimStep 0; ClaimStep 0;
   WorkerStep 1].

(** Two claims served by two workers while the session reports errors: at
    the end one message is forwarded, one is dropped, one is held by a
    worker, and two handlers stand at [MarkMessage]. The error sent on
    [group.Errors()] is received before [Consume] returns and logged
    after. *)
Definition busy : list Action :=
  [ClaimStarts [msg 0 "{a}"; msg 1 ""];
   ClaimStarts [msg 5 "{c}"];
   SessionError (Err "broker down");
   ClaimStep 0; ClaimStep 0;
   DrainStep;
   ClaimStep 1;
   WorkerStep 1;
   ClaimStep 1;
   ClaimStep 0;
   ConsumeReturns (Some (Err "rebalance"));
   WorkerStep 0;
   DrainStep;
   ClaimStep 0; ClaimStep 0;
   WorkerStep 1; WorkerStep 1].

(** A session that reports four errors, three of them on [group.Errors()]:
    at the end the draining goroutine has logged the first, holds the second
    and has left the third in the channel. *)
Definition noisy : list Action :=
  [SessionError (Err "broker down");
   DrainStep;
   ConsumeReturns (Some (Err "rebalance"));
   SessionError (Err "offset out of range");
   SessionError (Err "request timed out");
   DrainStep; DrainStep].

(** A server whose ingress ["kafka"] is configured with no worker. *)
Definition server_unmanned : config.ServerConfig :=
  {| config.ServerConfig_Ingress :=
       <["kafka" := endpoint ["broker-1:9092"; "broker-2:9092"] "analytics" 0]> ∅;
     config.ServerConfig_Ingestion := ∅;
     config.ServerConfig_Geo := inhabitant;
     config.ServerConfig_Flow := [];
     config.ServerConfig_logger := Some config.DefaultLogger |}.

Definition ctx_unmanned : config.Context :=
  {| config.ctx_server := server_unmanned; config.ctx_done := false |}.

Definition session_unmanned : consumerGroup (B := broker) :=
  {| group := {| addrs := ["broker-1:9092"; "broker-2:9092"]; groupID := "tcpdog";
                 sconfig :=
                   {| Brokers := ["broker-1:9092"; "broker-2:9092"]; Topic := "events";
                      Group := "analytics"; Workers := 0 |}
                   : SaramaConfig (Broker := broker) |};
     serialization := "" |}.

(** The handler takes, sends and marks the first message of its claim and
    takes the second, which it cannot send. *)
Definition stalled : list Action :=
  [ClaimStarts [msg 0 "{a}"; msg 1 "{b}"];
   ClaimStep 0; ClaimStep 0; ClaimStep 0; ClaimStep 0].

End sample.

(** * Properties of the configuration package *)

(** On a document that is written out, its keys decide what it has. *)
Ltac by_keys := apply (bool_decide_unpack _); vm_compute; exact I.
Ltac has_entry := solve [repeat first [left | right]].

Section ConfigFacts.
Import config.

(** ** Transform *)

Lemma find_field_Some field kvs v :
  find_field field kvs = Some v → ∃ k, (k, v) ∈ kvs ∧ names k field = true.
Proof.
  induction kvs as [|[k w] kvs IH]; simpl; [done|].
  destruct (names k field) eqn:Hk.
  - intros [= ->]. exists k. split; [left|done].
  - intros (k' & ? & ?)%IH. exists k'. split; [by right|done].
Qed.

Lemma find_field_None field kvs :
  find_field field kvs = None → ∀ k v, (k, v) ∈ kvs → names k field = false.
Proof.
  induction kvs as [|[k w] kvs IH]; simpl; [by intros _ k v ?%elem_of_nil|].
  destruct (names k field) eqn:Hk; [done|].
  intros Hnone k' v' [[= -> ->]|Hin]%elem_of_cons; eauto.
Qed.

Lemma populate_fields_names kvs (T : Shape) : (populate_fields kvs T).*1 = T.*1.
Proof.
  unfold populate_fields. rewrite <- list_fmap_compose.
  apply list_fmap_ext. by intros _ [field old] _.
Qed.

Lemma populate_fields_lookup kvs (T : Shape) n field old :
  T !! n = Some (field, old) →
  populate_fields kvs T !! n = Some (field, default old (find_field field kvs)).
Proof. intros Hn. unfold populate_fields. by rewrite list_lookup_fmap, Hn. Qed.

(** C6. On a mapping, [Transform] returns no error, keeps the fields of the
    target, and leaves in every field that a key of the mapping names the
    value of such a key (a field that no key names keeps its value); on a
    source that is not a mapping, a channel for one, it returns a
    [TransformError] and the target as it was. *)
Theorem Transform_populates_or_rejects :
  (∀ kvs (T : Shape),
     (Transform (VMap kvs) T).2 = None ∧
     (Transform (VMap kvs) T).1.*1 = T.*1 ∧
     ∀ n field old, T !! n = Some (field, old) →
       match find_field field kvs with
       | Some v =>
         (Transform (VMap kvs) T).1 !! n = Some (field, v) ∧
         ∃ k, (k, v) ∈ kvs ∧ names k field = true
       | None =>
         (Transform (VMap kvs) T).1 !! n = Some (field, old) ∧
         ∀ k v, (k, v) ∈ kvs → names k field = false
       end) ∧
  (∀ source (T : Shape),
     (∀ kvs, source ≠ VMap kvs) → Transform source T = (T, Some TransformError)) ∧
  (∀ T : Shape, Transform VChan T = (T, Some TransformError)).
Proof.
  split_and!.
  - intros kvs T. simpl. split_and!; [done|apply populate_fields_names|].
    intros n field old Hn. rewrite (populate_fields_lookup _ _ _ _ _ Hn).
    destruct (find_field field kvs) as [v|] eqn:Hf; simpl.
    + split; [done|]. by apply find_field_Some.
    + split; [done|]. by apply find_field_None.
  - intros source T Hsrc. destruct source; try done. by destruct (Hsrc kvs).
  - done.
Qed.

(** [TestTransform]. *)
Example TestTransform :
  let cfg := VMap [("foo", VString "bar"); ("key", VInt 5)] in
  let d : Shape := [("Foo", VString ""); ("Key", VInt 0)] in
  Transform cfg d = ([("Foo", VString "bar"); ("Key", VInt 5)], None) ∧
  (Transform VChan (Transform cfg d).1).2 = Some TransformError ∧
  (Transform VChan (Transform cfg d).1).1 = (Transform cfg d).1.
Proof. by vm_compute. Qed.

(** ** setDefault *)

Lemma default_workers_idemp tp : default_workers (default_workers tp) = default_workers tp.
Proof.
  unfold default_workers. destruct (Z.eqb_spec (Tracepoint_Workers tp) 0) as [H0|H0]; simpl.
  - done.
  - by apply Z.eqb_neq in H0 as ->.
Qed.

Lemma default_workers_count tp :
  Tracepoint_Workers (default_workers tp)
  = if decide (Tracepoint_Workers tp = 0%Z) then 1%Z else Tracepoint_Workers tp.
Proof.
  unfold default_workers. case_decide as H0.
  - by rewrite H0.
  - by apply Z.eqb_neq in H0 as ->.
Qed.

(** C7. [setDefault] sets the worker count of a tracepoint to 1 when it is
    zero and leaves the tracepoint as it is otherwise, installs the default
    sink when there is none and keeps the sink otherwise, and applying it
    twice gives what applying it once gives. *)
Theorem setDefault_defaults_once c :
  length (Config_Tracepoints (setDefault c)) = length (Config_Tracepoints c) ∧
  (∀ n tp, Config_Tracepoints c !! n = Some tp →
     ∃ tp', Config_Tracepoints (setDefault c) !! n = Some tp' ∧
       Tracepoint_Workers tp'
       = (if decide (Tracepoint_Workers tp = 0%Z) then 1%Z else Tracepoint_Workers tp) ∧
       (Tracepoint_Workers tp ≠ 0%Z → tp' = tp)) ∧
  (Config_logger c = None → Config_logger (setDefault c) = Some GetDefaultLogger) ∧
  (∀ l, Config_logger c = Some l → Config_logger (setDefault c) = Some l) ∧
  setDefault (setDefault c) = setDefault c.
Proof.
  split_and!.
  - simpl. apply length_fmap.
  - intros n tp Hn. exists (default_workers tp). simpl.
    rewrite list_lookup_fmap, Hn. split_and!; [done|apply default_workers_count|].
    intros H0. unfold default_workers. by apply Z.eqb_neq in H0 as ->.
  - simpl. by intros ->.
  - simpl. by intros l ->.
  - unfold setDefault. simpl. f_equal.
    + rewrite <- list_fmap_compose. apply list_fmap_ext. intros _ tp _. simpl.
      apply default_workers_idemp.
    + by destruct (Config_logger c).
Qed.

(** [TestSetDefault]. *)
Example TestSetDefault :
  let c := {| Config_Tracepoints :=
                [{| Tracepoint_Name := "foo"; Tracepoint_Fields := "";
                    Tracepoint_TCPState := ""; Tracepoint_Sample := 0;
                    Tracepoint_Workers := 0; Tracepoint_INet := [];
                    Tracepoint_Egress := "" |}];
              Config_Fields := ∅; Config_logger := None |} in
  Tracepoint_Workers <$> Config_Tracepoints (setDefault c) = [1%Z] ∧
  is_Some (Config_logger (setDefault c)).
Proof. split; [done|by eexists]. Qed.

(** ** GetServer *)

Lemma config_flag_None args :
  (∀ arg, arg ∈ args → is_config_flag arg = false) → config_flag args = None.
Proof.
  induction args as [|arg rest IH]; intros Hno; simpl; [done|].
  rewrite (Hno arg) by left. apply IH. intros arg' ?. apply Hno. by right.
Qed.

Lemma config_flag_first pre file rest :
  (∀ arg, arg ∈ pre → is_config_flag arg = false) →
  config_flag (pre ++ "-config" :: file :: rest) = Some file.
Proof.
  induction pre as [|arg pre IH]; intros Hno; simpl; [done|].
  rewrite (Hno arg) by left. apply IH. intros arg' ?. apply Hno. by right.
Qed.

Lemma read_endpoint_doc e : read_endpoint (endpoint_doc e) = Some e.
Proof.
  unfold read_endpoint, endpoint_doc, string_key. simpl.
  rewrite list_to_map_to_list. by destruct e.
Qed.

Lemma read_endpoints_doc m : read_endpoints (Some (endpoints_doc m)) = Some m.
Proof.
  unfold read_endpoints, endpoints_doc.
  rewrite mapM_fmap_Some.
  - simpl. by rewrite list_to_map_to_list.
  - intros [name e].
    change (pair name <$> read_endpoint (endpoint_doc e) = Some (name, e)).
    by rewrite read_endpoint_doc.
Qed.

Lemma read_flow_doc f : read_flow (flow_doc f) = Some f.
Proof. by destruct f. Qed.

Lemma read_flows_doc fl : read_flows (Some (VSlice (flow_doc <$> fl))) = Some fl.
Proof. unfold read_flows. apply mapM_fmap_Some. apply read_flow_doc. Qed.

(** Reading the document that declares a configuration gives the
    configuration back, without a sink. *)
Lemma read_server_doc cfg :
  read_server (server_doc cfg) =
  Some {| ServerConfig_Ingress := ServerConfig_Ingress cfg;
          ServerConfig_Ingestion := ServerConfig_Ingestion cfg;
          ServerConfig_Geo := ServerConfig_Geo cfg;
          ServerConfig_Flow := ServerConfig_Flow cfg;
          ServerConfig_logger := None |}.
Proof.
  unfold read_server, server_doc.
  change (assoc "ingress" _) with (Some (endpoints_doc (ServerConfig_Ingress cfg))).
  change (assoc "ingestion" _) with (Some (endpoints_doc (ServerConfig_Ingestion cfg))).
  change (assoc "geo" _) with (Some (endpoint_doc (ServerConfig_Geo cfg))).
  change (assoc "flow" _) with (Some (VSlice (flow_doc <$> ServerConfig_Flow cfg))).
  by rewrite !read_endpoints_doc, read_endpoint_doc, read_flows_doc.
Qed.

(** *** Reading a valid document *)

(** In a mapping with each key once, the reader finds the entry of a key
    wherever it is written. *)
Lemma assoc_entry kvs key v : NoDup kvs.*1 → entry kvs key v → assoc key kvs = v.
Proof.
  induction kvs as [|[k x] kvs IH]; simpl.
  - intros _. destruct v; [by intros ?%elem_of_nil|done].
  - intros [Hk Hnd]%NoDup_cons. destruct (String.eqb_spec k key) as [->|Hne].
    + destruct v as [v|]; simpl.
      * intros [[= ->]|Hin]%elem_of_cons; [done|].
        destruct Hk. apply list_elem_of_fmap. by exists (key, v).
      * intros []. left.
    + destruct v as [v|]; simpl.
      * intros [[= ? ?]|Hin]%elem_of_cons; [done|]. by apply IH.
      * intros Hnot. apply IH; [done|]. simpl. intros ?. apply Hnot. by right.
Qed.

Lemma string_key_declares kvs key s :
  NoDup kvs.*1 → declares_string kvs key s → string_key key kvs = Some s.
Proof.
  intros Hnd [He|[He ->]]; unfold string_key; by rewrite (assoc_entry _ _ _ Hnd He).
Qed.

Lemma read_endpoint_declares v e : declares_endpoint v e → read_endpoint v = Some e.
Proof.
  intros (kvs & -> & Hnd & Ht & Hc). unfold read_endpoint.
  rewrite (string_key_declares _ _ _ Hnd Ht). simpl.
  destruct Hc as [(settings & He & Hs & Hc)|[He Hc]]; rewrite (assoc_entry _ _ _ Hnd He).
  - simpl. destruct e as [t c]. simpl in *. f_equal. f_equal.
    apply map_eq. intros k. apply option_eq. intros x.
    rewrite <- elem_of_list_to_map by done. by rewrite Hc.
  - simpl. destruct e as [t c]. simpl in *. by subst.
Qed.

Lemma read_endpoints_declares kvs key m :
  NoDup kvs.*1 → declares_endpoints kvs key m → read_endpoints (assoc key kvs) = Some m.
Proof.
  intros Hnd [(es & He & Hes & Hin & Hno)|[He ->]]; rewrite (assoc_entry _ _ _ Hnd He);
    [|done].
  unfold read_endpoints.
  assert (∃ ends, mapM (λ '(name, e), pair name <$> read_endpoint e) es = Some ends ∧
            ends.*1 = es.*1 ∧ ∀ name e, (name, e) ∈ ends → m !! name = Some e)
    as (ends & -> & Hnames & Hends).
  { clear Hes Hno He. induction es as [|[name v] es IH]; simpl.
    - exists []. split_and!; [done..|]. by intros ? ? ?%elem_of_nil.
    - destruct (Hin name v) as (e & Hm & Hv); [left|].
      destruct IH as (ends & -> & Hnames & Hends); [intros; apply Hin; by right|].
      rewrite (read_endpoint_declares _ _ Hv). simpl. exists ((name, e) :: ends).
      split_and!; [done|by rewrite !fmap_cons, Hnames|].
      intros name' e' [[= -> ->]|?]%elem_of_cons; eauto. }
  simpl. f_equal. apply map_eq. intros name. apply option_eq. intros e.
  rewrite <- elem_of_list_to_map by (by rewrite Hnames). split; [by auto|].
  intros Hm. pose proof (Hno _ _ Hm) as Hname. rewrite <- Hnames in Hname.
  apply list_elem_of_fmap in Hname as ([name' e'] & -> & Hin').
  simpl in *. pose proof (Hends _ _ Hin'). by simplify_eq.
Qed.

Lemma read_flow_declares v f : declares_flow v f → read_flow v = Some f.
Proof.
  intros (kvs & -> & Hnd & Hi & Hg & Hz). unfold read_flow.
  rewrite (string_key_declares _ _ _ Hnd Hi), (string_key_declares _ _ _ Hnd Hg),
    (string_key_declares _ _ _ Hnd Hz).
  by destruct f.
Qed.

(** The reader finds in a valid document the configuration that it
    declares, without a sink. *)
Lemma read_server_declares doc cfg :
  declares doc cfg →
  read_server doc =
  Some {| ServerConfig_Ingress := ServerConfig_Ingress cfg;
          ServerConfig_Ingestion := ServerConfig_Ingestion cfg;
          ServerConfig_Geo := ServerConfig_Geo cfg;
          ServerConfig_Flow := ServerConfig_Flow cfg;
          ServerConfig_logger := None |}.
Proof.
  intros (kvs & -> & Hnd & Hin & Hout & Hgeo & Hflow). unfold read_server.
  rewrite (read_endpoints_declares _ _ _ Hnd Hin), (read_endpoints_declares _ _ _ Hnd Hout).
  assert (read_flows (assoc "flow" kvs) = Some (ServerConfig_Flow cfg)) as ->.
  { destruct Hflow as [(vs & He & Hvs)|[He ->]]; rewrite (assoc_entry _ _ _ Hnd He);
      [|done].
    apply mapM_Some. eapply Forall2_impl; [done|]. apply read_flow_declares. }
  destruct Hgeo as [(v & He & Hv)|[He Hg]]; rewrite (assoc_entry _ _ _ Hnd He).
  - by rewrite (read_endpoint_declares _ _ Hv).
  - simpl. by rewrite Hg.
Qed.

(** What is declared does not depend on the order in which a mapping is
    written. *)
Lemma entry_Permutation kvs kvs' key v : kvs ≡ₚ kvs' → entry kvs key v → entry kvs' key v.
Proof. intros Hp. destruct v; simpl; by rewrite Hp. Qed.

Lemma declares_Permutation kvs kvs' cfg :
  kvs ≡ₚ kvs' → declares (VMap kvs) cfg → declares (VMap kvs') cfg.
Proof.
  intros Hp (? & [= <-] & Hnd & Hin & Hout & Hgeo & Hflow).
  assert (∀ key v, entry kvs key v → entry kvs' key v) as He
    by (intros; by eapply entry_Permutation).
  exists kvs'. split_and!; [done|by rewrite <- Hp| | | |].
  - destruct Hin as [(es & ? & ?)|[? ?]]; [left; exists es|right]; eauto.
  - destruct Hout as [(es & ? & ?)|[? ?]]; [left; exists es|right]; eauto.
  - destruct Hgeo as [(v & ? & ?)|[? ?]]; [left; exists v|right]; eauto.
  - destruct Hflow as [(vs & ? & ?)|[? ?]]; [left; exists vs|right]; eauto.
Qed.

(** The document that [server_doc] writes for a configuration declares
    it. *)
Lemma endpoint_doc_declares e : declares_endpoint (endpoint_doc e) e.
Proof.
  eexists. split; [done|]. split_and!; [by_keys|left; has_entry|].
  left. exists (map_to_list (Ingress_Config e)). split_and!; [has_entry| |].
  - apply NoDup_fst_map_to_list.
  - intros k x. by rewrite elem_of_map_to_list.
Qed.

Lemma endpoints_doc_declares kvs key m :
  entry kvs key (Some (endpoints_doc m)) → declares_endpoints kvs key m.
Proof.
  intros He. left. eexists. split; [exact He|].
  assert (((λ '(name, e), (name, endpoint_doc e)) <$> map_to_list m).*1
          = (map_to_list m).*1) as Hnames.
  { rewrite <- list_fmap_compose. apply list_fmap_ext. by intros _ [name e] _. }
  split_and!.
  - rewrite Hnames. apply NoDup_fst_map_to_list.
  - intros name v ([name' e] & [= -> ->] & Hin%elem_of_map_to_list)%list_elem_of_fmap.
    exists e. split; [done|]. apply endpoint_doc_declares.
  - intros name e Hm%elem_of_map_to_list. rewrite Hnames.
    apply list_elem_of_fmap. by exists (name, e).
Qed.

Lemma flow_doc_declares f : declares_flow (flow_doc f) f.
Proof. eexists. split; [done|]. split_and!; [by_keys|left; has_entry..]. Qed.

Lemma server_doc_declares cfg : declares (server_doc cfg) cfg.
Proof.
  eexists. split; [done|]. split_and!; [by_keys|..].
  - apply endpoints_doc_declares. has_entry.
  - apply endpoints_doc_declares. has_entry.
  - left. eexists. split; [has_entry|]. apply endpoint_doc_declares.
  - left. eexists. split; [has_entry|].
    apply Forall2_fmap_l, Forall_Forall2_diag, Forall_forall. intros f _.
    apply flow_doc_declares.
Qed.

(** C8. Without a configuration-file flag among its arguments, [GetServer]
    fails; so it does when the flag names no file or a file that is no
    document; and when the flag names a valid server document, whatever the
    order in which its mappings are written and whichever of its keys are
    left out, the ingress, ingestion, geo and flow fields of the result are
    those that the document declares. *)
Theorem GetServer_requires_the_file fs version :
  (∀ args, (∀ arg, arg ∈ tail args → is_config_flag arg = false) →
     ∃ err, GetServer fs args version = Fail err) ∧
  (∀ prog pre file rest,
     (∀ arg, arg ∈ pre → is_config_flag arg = false) →
     fs !! file = None →
     ∃ err, GetServer fs (prog :: pre ++ "-config" :: file :: rest) version = Fail err) ∧
  (∀ prog pre file rest doc cfg,
     (∀ arg, arg ∈ pre → is_config_flag arg = false) →
     fs !! file = Some (Document doc) →
     declares doc cfg →
     ∃ c, GetServer fs (prog :: pre ++ "-config" :: file :: rest) version = Ok c ∧
       ServerConfig_Ingress c = ServerConfig_Ingress cfg ∧
       ServerConfig_Ingestion c = ServerConfig_Ingestion cfg ∧
       ServerConfig_Geo c = ServerConfig_Geo cfg ∧
       ServerConfig_Flow c = ServerConfig_Flow cfg).
Proof.
  split_and!.
  - intros args Hno. unfold GetServer. rewrite (config_flag_None _ Hno). by eexists.
  - intros prog pre file rest Hno Hfile. unfold GetServer, loadServer. simpl.
    rewrite (config_flag_first _ _ _ Hno), Hfile. by eexists.
  - intros prog pre file rest doc cfg Hno Hfile Hdoc. unfold GetServer, loadServer. simpl.
    rewrite (config_flag_first _ _ _ Hno), Hfile, (read_server_declares _ _ Hdoc).
    by eexists.
Qed.

(** The document of [TestGetServer] is a valid server document. *)
Example test_server_doc_declares : declares test_server_doc test_server.
Proof.
  eexists. split; [done|]. split_and!; [by_keys|..].
  - left. eexists. split_and!; [has_entry|by_keys| |].
    + intros name v [= -> ->]%list_elem_of_singleton. eexists. split; [done|]. eexists.
      split; [done|]. split_and!; [by_keys|left; has_entry|].
      right. split; [by_keys|done].
    + intros name e. simpl. intros [<- _]%lookup_singleton_Some. by_keys.
  - left. eexists. split_and!; [has_entry|by_keys| |].
    + intros name v [= -> ->]%list_elem_of_singleton. eexists. split; [done|]. eexists.
      split; [done|]. split_and!; [by_keys|left; has_entry|].
      right. split; [by_keys|done].
    + intros name e. simpl. intros [<- _]%lookup_singleton_Some. by_keys.
  - left. eexists. split; [has_entry|]. eexists. split; [done|].
    split_and!; [by_keys|left; has_entry|]. right. split; [by_keys|done].
  - left. eexists. split; [has_entry|]. repeat constructor.
    eexists. split; [done|]. split_and!; [by_keys|left; has_entry..].
Qed.

(** So is the same document written in another order, with a setting and
    with a key that is not read. *)
Example reordered_server_doc_declares : declares reordered_server_doc reordered_server.
Proof.
  eexists. split; [done|]. split_and!; [by_keys|..].
  - left. eexists. split_and!; [has_entry|by_keys| |].
    + intros name v [= -> ->]%list_elem_of_singleton. eexists. split; [done|]. eexists.
      split; [done|]. split_and!; [by_keys|left; has_entry|].
      right. split; [by_keys|done].
    + intros name e. simpl. intros [<- _]%lookup_singleton_Some. by_keys.
  - left. eexists. split_and!; [has_entry|by_keys| |].
    + intros name v [= -> ->]%list_elem_of_singleton. eexists. split; [done|]. eexists.
      split; [done|]. split_and!; [by_keys|left; has_entry|].
      right. split; [by_keys|done].
    + intros name e. simpl. intros [<- _]%lookup_singleton_Some. by_keys.
  - left. eexists. split; [has_entry|]. eexists. split; [done|].
    split_and!; [by_keys|left; has_entry|]. left. eexists.
    split_and!; [has_entry|by_keys|]. intros k x. simpl.
    rewrite lookup_singleton_Some, list_elem_of_singleton. split; [by intros [<- <-]|].
    by intros [= -> ->].
  - left. eexists. split; [has_entry|]. repeat constructor.
    eexists. split; [done|]. split_and!; [by_keys|left; has_entry..].
Qed.

(** [TestGetServer]. *)
Example TestGetServer :
  let fs : Files := {["/tmp/config.yml" := Document test_server_doc]} in
  (∃ c, GetServer fs ["tcpdog"; "-config"; "/tmp/config.yml"] "0.0.0" = Ok c ∧
     Ingress_Type (ServerConfig_Geo c) = "maxmind" ∧
     Ingress_Type (index (ServerConfig_Ingestion c) "elasticsearch") = "elasticsearch" ∧
     Ingress_Type (index (ServerConfig_Ingress c) "grpc") = "grpc" ∧
     ServerConfig_Flow c =
       [{| Flow_Ingress := "grpc"; Flow_Ingestion := "elasticsearch";
           Flow_Serialization := "spb" |}]) ∧
  is_Ok (GetServer fs ["tcpdog"] "0.0.0") = false.
Proof.
  intros fs. split; [|by vm_compute].
  assert (is_Ok (GetServer fs ["tcpdog"; "-config"; "/tmp/config.yml"] "0.0.0") = true)
    as Hok by (by vm_compute).
  destruct (GetServer fs _ _) as [c|] eqn:Hc; [|done]. exists c. split; [done|].
  assert (match GetServer fs ["tcpdog"; "-config"; "/tmp/config.yml"] "0.0.0" with
          | Ok c =>
            (Ingress_Type (ServerConfig_Geo c),
             Ingress_Type (index (ServerConfig_Ingestion c) "elasticsearch"),
             Ingress_Type (index (ServerConfig_Ingress c) "grpc"),
             ServerConfig_Flow c)
          | Fail _ => ("", "", "", [])
          end
          = ("maxmind", "elasticsearch", "grpc",
             [{| Flow_Ingress := "grpc"; Flow_Ingestion := "elasticsearch";
                 Flow_Serialization := "spb" |}])) as Hfields by (by vm_compute).
  rewrite Hc in Hfields. by injection Hfields as -> -> -> ->.
Qed.

(** ** GetTLS and GetCreds *)

Lemma GetCreds_Fail fs cfg err : GetCreds fs cfg = Fail err ↔ GetTLS fs cfg = Fail err.
Proof.
  unfold GetCreds. destruct (GetTLS fs cfg) as [settings|e]; simpl; [done|].
  split; by intros [= ->].
Qed.

(** C9. [GetTLS] fails when the trust-anchor path leads nowhere, and when a
    certificate path is given, whatever it leads to, with no key path; it
    succeeds on a certificate, the key that belongs to it and a trust
    anchor; and [GetCreds] fails exactly when [GetTLS] does, with the same
    error, and otherwise wraps the settings of [GetTLS]. *)
Theorem GetTLS_failure_modes fs cfg :
  (fs !! TLSConfig_CAFile cfg = None → ∃ err, GetTLS fs cfg = Fail err) ∧
  (TLSConfig_CertFile cfg ≠ "" → TLSConfig_KeyFile cfg = "" →
     ∃ err, GetTLS fs cfg = Fail err) ∧
  (∀ pub ca,
     TLSConfig_CertFile cfg ≠ "" → TLSConfig_KeyFile cfg ≠ "" →
     fs !! TLSConfig_CertFile cfg = Some (PEMCertificate pub) →
     fs !! TLSConfig_KeyFile cfg = Some (PEMPrivateKey pub) →
     fs !! TLSConfig_CAFile cfg = Some (PEMCertificate ca) →
     GetTLS fs cfg = Ok {| Certificates := [pub]; RootCAs := [ca] |}) ∧
  (∀ err, GetCreds fs cfg = Fail err ↔ GetTLS fs cfg = Fail err) ∧
  (∀ settings, GetTLS fs cfg = Ok settings → GetCreds fs cfg = Ok (NewTLS settings)).
Proof.
  split_and!.
  - intros Hca. unfold GetTLS, load_trust_anchor. rewrite Hca.
    destruct (load_key_pair _ _ _); by eexists.
  - intros Hcert%String.eqb_neq Hkey. unfold GetTLS, load_key_pair.
    rewrite Hcert, Hkey. simpl. by eexists.
  - intros pub ca Hcert%String.eqb_neq Hkey%String.eqb_neq Hc Hk Hca.
    unfold GetTLS, load_key_pair, load_trust_anchor.
    by rewrite Hcert, Hkey, Hc, Hk, Hca, String.eqb_refl.
  - intros err. apply GetCreds_Fail.
  - intros settings Hok. unfold GetCreds. by rewrite Hok.
Qed.

(** [TestGetTLSCreds]: a self-signed certificate serves as certificate and
    as trust anchor. *)
Example TestGetTLSCreds :
  let fs : Files :=
    {["/tmp/certFile" := PEMCertificate "foo"; "/tmp/caFile" := PEMCertificate "foo";
      "/tmp/keyFile" := PEMPrivateKey "foo"]} in
  let cfg ca key cert :=
    {| TLSConfig_Enable := true; TLSConfig_CertFile := cert;
       TLSConfig_KeyFile := key; TLSConfig_CAFile := ca |} in
  is_Ok (GetTLS fs (cfg "/tmp/caFile" "/tmp/keyFile" "/tmp/certFile")) = true ∧
  is_Ok (GetCreds fs (cfg "/tmp/caFile" "/tmp/keyFile" "/tmp/certFile")) = true ∧
  is_Ok (GetTLS fs (cfg "foo" "/tmp/keyFile" "/tmp/certFile")) = false ∧
  is_Ok (GetTLS fs (cfg "foo" "" "foo")) = false ∧
  is_Ok (GetCreds fs (cfg "foo" "" "foo")) = false.
Proof. by vm_compute. Qed.

End ConfigFacts.

(** ** The configuration package on concrete inputs *)

Section ConfigRuns.
Import config.

Lemma Transform_populates_or_rejects_witness :
  let cfg := [("foo", VString "bar"); ("key", VInt 5)] in
  let d : Shape := [("Foo", VString ""); ("Key", VInt 0)] in
  (Transform (VMap cfg) d).1 !! 1%nat = Some ("Key", VInt 5) ∧
  Transform VChan d = (d, Some TransformError).
Proof.
  intros cfg d. destruct Transform_populates_or_rejects as (Hmap & _ & Hchan).
  split; [|apply Hchan]. destruct (Hmap cfg d) as (_ & _ & Hfield).
  by destruct (Hfield 1%nat "Key" (VInt 0) eq_refl) as [-> _].
Defined.

Lemma setDefault_defaults_once_witness :
  let tp w :=
    {| Tracepoint_Name := "foo"; Tracepoint_Fields := ""; Tracepoint_TCPState := "";
       Tracepoint_Sample := 0; Tracepoint_Workers := w; Tracepoint_INet := [];
       Tracepoint_Egress := "" |} in
  let c := {| Config_Tracepoints := [tp 0%Z; tp 4%Z]; Config_Fields := ∅;
              Config_logger := None |} in
  Config_Tracepoints (setDefault c) = [tp 1%Z; tp 4%Z] ∧
  Config_logger (setDefault c) = Some GetDefaultLogger ∧
  setDefault (setDefault c) = setDefault c.
Proof.
  intros tp c. destruct (setDefault_defaults_once c) as (_ & _ & Hsink & _ & Hidem).
  split_and!; [done|by apply Hsink|exact Hidem].
Defined.

Lemma GetServer_requires_the_file_witness :
  let fs : Files := {["/tmp/config.yml" := Document test_server_doc;
                      "/tmp/reordered.yml" := Document reordered_server_doc;
                      "/tmp/written.yml" := Document (server_doc sample.server)]} in
  let fields c :=
    (ServerConfig_Ingress c, ServerConfig_Ingestion c, ServerConfig_Geo c,
     ServerConfig_Flow c) in
  (∃ err, GetServer fs ["tcpdog"] "0.0.0" = Fail err) ∧
  (∃ err, GetServer fs ["tcpdog"; "-config"; "not-exist"] "0.0.0" = Fail err) ∧
  (∃ c, GetServer fs ["tcpdog"; "-config"; "/tmp/config.yml"] "0.0.0" = Ok c ∧
     fields c = fields test_server) ∧
  (∃ c, GetServer fs ["tcpdog"; "-config"; "/tmp/reordered.yml"] "0.0.0" = Ok c ∧
     fields c = fields reordered_server) ∧
  (∃ c, GetServer fs ["tcpdog"; "-config"; "/tmp/written.yml"] "0.0.0" = Ok c ∧
     fields c = fields sample.server).
Proof.
  intros fs fields.
  destruct (GetServer_requires_the_file fs "0.0.0") as (Hnone & Hmiss & Hdoc).
  split_and!.
  - apply Hnone. by intros arg ?%elem_of_nil.
  - apply (Hmiss "tcpdog" [] "not-exist" []); [by intros arg ?%elem_of_nil|].
    by vm_compute.
  - destruct (Hdoc "tcpdog" [] "/tmp/config.yml" [] test_server_doc test_server)
      as (c & Hc & Hin & Hout & Hgeo & Hflow);
      [by intros arg ?%elem_of_nil|reflexivity|exact test_server_doc_declares|].
    exists c. split; [exact Hc|]. unfold fields. by rewrite Hin, Hout, Hgeo, Hflow.
  - destruct (Hdoc "tcpdog" [] "/tmp/reordered.yml" [] reordered_server_doc
                reordered_server) as (c & Hc & Hin & Hout & Hgeo & Hflow);
      [by intros arg ?%elem_of_nil|reflexivity|exact reordered_server_doc_declares|].
    exists c. split; [exact Hc|]. unfold fields. by rewrite Hin, Hout, Hgeo, Hflow.
  - destruct (Hdoc "tcpdog" [] "/tmp/written.yml" [] (server_doc sample.server)
                sample.server) as (c & Hc & Hin & Hout & Hgeo & Hflow);
      [by intros arg ?%elem_of_nil|reflexivity|apply server_doc_declares|].
    exists c. split; [exact Hc|]. unfold fields. by rewrite Hin, Hout, Hgeo, Hflow.
Defined.

Lemma GetTLS_failure_modes_witness :
  let fs : Files :=
    {["/tmp/certFile" := PEMCertificate "foo"; "/tmp/caFile" := PEMCertificate "foo";
      "/tmp/keyFile" := PEMPrivateKey "foo"]} in
  let cfg ca key cert :=
    {| TLSConfig_Enable := true; TLSConfig_CertFile := cert;
       TLSConfig_KeyFile := key; TLSConfig_CAFile := ca |} in
  GetTLS fs (cfg "/tmp/caFile" "/tmp/keyFile" "/tmp/certFile")
    = Ok {| Certificates := ["foo"]; RootCAs := ["foo"] |} ∧
  (∃ err, GetTLS fs (cfg "foo" "/tmp/keyFile" "/tmp/certFile") = Fail err) ∧
  (∃ err, GetTLS fs (cfg "/tmp/caFile" "" "foo") = Fail err).
Proof.
  intros fs cfg. split_and!.
  - destruct (GetTLS_failure_modes fs (cfg "/tmp/caFile" "/tmp/keyFile" "/tmp/certFile"))
      as (_ & _ & Hok & _).
    apply Hok; by vm_compute.
  - destruct (GetTLS_failure_modes fs (cfg "foo" "/tmp/keyFile" "/tmp/certFile"))
      as (Hca & _).
    apply Hca. by vm_compute.
  - destruct (GetTLS_failure_modes fs (cfg "/tmp/caFile" "" "foo")) as (_ & Hpair & _).
    by apply Hpair.
Defined.

End ConfigRuns.

(** * Properties of the ingress consumer *)

Section IngressFacts.
Import kafka.
Context {B : Broker} {W : Wire}.

Implicit Types (s : Sys) (acts : list Action) (tr : list Obs) (m : Message).

(** ** Start-up *)

Lemma newConsumerGroup_Ok kCfg cg :
  newConsumerGroup kCfg = Ok cg →
  ∃ sConfig,
    saramaConfig kCfg = Ok sConfig ∧
    sarama_dial (Brokers kCfg) "tcpdog" sConfig = None ∧
    cg = {| group := {| addrs := Brokers kCfg; groupID := "tcpdog"; sconfig := sConfig |};
            serialization := "" |}.
Proof.
  unfold newConsumerGroup, sarama_NewConsumerGroup, mbind, result_bind, mret, result_ret.
  destruct (saramaConfig kCfg) as [sConfig|e]; [|discriminate].
  destruct (sarama_dial _ _ _) eqn:Hdial; [discriminate|].
  intros [= <-]. by exists sConfig.
Qed.

Lemma Start_Fail ctx name ser out err :
  newConsumerGroup (resolved ctx name) = Fail err →
  Start ctx name ser out = (Some err, []).
Proof. unfold Start, resolved. by intros ->. Qed.

Lemma Start_Ok ctx name ser out cg :
  newConsumerGroup (resolved ctx name) = Ok cg →
  Start ctx name ser out =
    (None,
     ErrorDrain (group cg)
       :: Supervisor (group cg) [Topic (resolved ctx name)] {| ch := {| capacity := 1 |} |}
       :: replicate (Z.to_nat (Workers (resolved ctx name)))
            (Worker {| group := group cg; serialization := ser |} out {| capacity := 1 |})).
Proof. unfold Start, resolved. by intros ->. Qed.

(** [Start] reads the configuration of the context and nothing else of it:
    whether the context has been cancelled makes no difference. *)
Lemma Start_any_cancellation cfg done done' name ser out :
  Start {| config.ctx_server := cfg; config.ctx_done := done |} name ser out
  = Start {| config.ctx_server := cfg; config.ctx_done := done' |} name ser out.
Proof. done. Qed.

(** The format name plays no part in whether [Start] fails. *)
Lemma Start_error_any_format ctx name ser ser' out :
  (Start ctx name ser out).1 = (Start ctx name ser' out).1.
Proof. unfold Start. by destruct (newConsumerGroup _). Qed.

Lemma getUnmarshal_unregistered ser :
  ser ≠ "json" → ser ≠ "spb" → ser ≠ "pb" → getUnmarshal ser = None.
Proof.
  intros Hj Hs Hp. unfold getUnmarshal.
  apply String.eqb_neq in Hj, Hs, Hp. by rewrite Hj, Hs, Hp.
Qed.

Lemma getUnmarshal_registered ser :
  is_Some (getUnmarshal ser) ↔ ser = "json" ∨ ser = "spb" ∨ ser = "pb".
Proof.
  unfold getUnmarshal. split.
  - destruct (String.eqb_spec ser "json"); [auto|].
    destruct (String.eqb_spec ser "spb"); [auto|].
    destruct (String.eqb_spec ser "pb"); [auto|].
    by intros [? ?].
  - intros [-> | [-> | ->]]; by eexists.
Qed.

(** ** The spawned system *)

Lemma run_app s acts acts' :
  run s (acts ++ acts') = s' ← run s acts; run s' acts'.
Proof.
  revert s. induction acts as [|a acts IH]; intros s; simpl; [done|].
  destruct (exec s a) as [s1|]; simpl; [apply IH|done].
Qed.

Lemma run_snoc s acts a s' :
  run s (acts ++ [a]) = Some s' ↔ ∃ s1, run s acts = Some s1 ∧ exec s1 a = Some s'.
Proof.
  rewrite run_app. destruct (run s acts) as [s1|]; simpl.
  - destruct (exec s1 a) as [s2|] eqn:He; simpl; split.
    + intros [= <-]. eauto.
    + by intros (? & [= <-] & ?); simplify_eq.
    + done.
    + by intros (? & [= <-] & ?); simplify_eq.
  - split; [done|]. by intros (? & ? & ?).
Qed.

(** An invariant of the scheduler holds along every run. *)
Lemma run_invariant (P : Sys → Prop) s acts s' :
  (∀ s1 a s2, P s1 → exec s1 a = Some s2 → P s2) →
  P s → run s acts = Some s' → P s'.
Proof.
  intros Hstep. revert s. induction acts as [|a acts IH]; intros s HP; simpl.
  - by intros [= <-].
  - destruct (exec s a) as [s1|] eqn:He; simpl; [|done]. eauto.
Qed.


(** ** Hand-off and acknowledgement *)

Lemma at_mark_app cs cs' : at_mark (cs ++ cs') = at_mark cs ++ at_mark cs'.
Proof. apply omap_app. Qed.

Lemma at_mark_cons c cs : at_mark (c :: cs) = marking c ++ at_mark cs.
Proof. unfold at_mark, marking. simpl. by destruct (claim_pc c). Qed.

Lemma at_mark_lookup cs i c :
  cs !! i = Some c →
  at_mark cs = at_mark (take i cs) ++ marking c ++ at_mark (drop (S i) cs).
Proof.
  intros Hi. rewrite <- (take_drop_middle cs i c Hi) at 1.
  by rewrite at_mark_app, at_mark_cons.
Qed.

Lemma at_mark_insert cs i c c' :
  cs !! i = Some c →
  at_mark (<[i := c']> cs) = at_mark (take i cs) ++ marking c' ++ at_mark (drop (S i) cs).
Proof.
  intros Hi. rewrite insert_take_drop by (by eapply lookup_lt_Some).
  by rewrite at_mark_app, at_mark_cons.
Qed.

Lemma handed_off_snoc tr o :
  handed_off (tr ++ [o]) = handed_off tr ++ match o with HandedOff m => [m] | _ => [] end.
Proof. unfold handed_off. rewrite omap_app. simpl. by destruct o. Qed.

Lemma marked_snoc tr o :
  marked (tr ++ [o]) = marked tr ++ match o with Marked m => [m] | _ => [] end.
Proof. unfold marked. rewrite omap_app. simpl. by destruct o. Qed.

Lemma sent_snoc tr o :
  sent (tr ++ [o]) =
  sent tr ++ match o with Forwarded out _ i => [(out, i)] | _ => [] end.
Proof. unfold sent. rewrite omap_app. simpl. by destruct o. Qed.

Lemma claim_step_balanced i s s' :
  balanced s → claim_step i s = Some s' → balanced s'.
Proof.
  unfold balanced, claim_step. intros Hb.
  destruct (claims s !! i) as [c|] eqn:Hi; simpl; [|done].
  rewrite (at_mark_lookup _ _ _ Hi) in Hb. unfold marking in Hb.
  destruct (claim_pc c) as [|m|m|] eqn:Hpc.
  - destruct (pending c) as [|m rest]; intros [= <-]; simpl;
      by rewrite (at_mark_insert _ _ _ _ Hi); unfold marking; simpl; try rewrite Hpc.
  - case_decide; [|done]. intros [= <-]. simpl.
    rewrite handed_off_snoc, marked_snoc, (at_mark_insert _ _ _ _ Hi), Hb.
    unfold marking. simpl.
    by rewrite <- Permutation_cons_append, <- !Permutation_middle, <- !(assoc_L (++)).
  - intros [= <-]. simpl.
    rewrite handed_off_snoc, marked_snoc, (at_mark_insert _ _ _ _ Hi), Hb.
    unfold marking. simpl. rewrite app_nil_r.
    by rewrite <- (Permutation_cons_append (marked _)), <- !Permutation_middle.
  - done.
Qed.

Lemma worker_step_balanced j s s' :
  balanced s → worker_step j s = Some s' → balanced s'.
Proof.
  unfold balanced, worker_step. intros Hb.
  destruct (workers s !! j) as [w|]; simpl; [|done].
  destruct (worker_pc w) as [|m i].
  - destruct (queue s) as [|m q]; [done|].
    destruct (worker_iter _ _); intros [= <-]; simpl;
      by rewrite handed_off_snoc, marked_snoc, !app_nil_r.
  - intros [= <-]. simpl. by rewrite handed_off_snoc, marked_snoc, !app_nil_r.
Qed.

Lemma exec_balanced s a s' : balanced s → exec s a = Some s' → balanced s'.
Proof.
  unfold exec. intros Hb. destruct (crashed s); [done|].
  destruct a as [r|err|ms|i|j|].
  - destruct (supervisor s); simpl; [|done]. intros [= <-]. revert Hb.
    unfold balanced. destruct r; simpl; [|done].
    by rewrite handed_off_snoc, marked_snoc, !app_nil_r.
  - destruct (drain s); [|done]. by intros [= <-].
  - destruct (supervisor s); simpl; [|done]. intros [= <-]. revert Hb.
    unfold balanced. simpl. by rewrite at_mark_app, !app_nil_r.
  - by apply claim_step_balanced.
  - by apply worker_step_balanced.
  - destruct (drain s); [|done]. unfold drain_step.
    destruct (drain_pc s); [destruct (errors s); [done|]|]; intros [= <-]; [done|].
    revert Hb. unfold balanced. simpl.
    by rewrite handed_off_snoc, marked_snoc, !app_nil_r.
Qed.

Lemma exec_traced s a s' : traced s → exec s a = Some s' → traced s'.
Proof.
  unfold exec, traced. intros (Hq & Hw & Ht). destruct (crashed s); [done|].
  destruct a as [r|err|ms|i|j|].
  - destruct (supervisor s); simpl; [|done]. intros [= <-].
    destruct r; simpl; [|done]. rewrite handed_off_snoc, app_nil_r.
    split_and!; [done..|]. intros o m [Ho| ->%list_elem_of_singleton]%elem_of_app; [eauto|done].
  - destruct (drain s); [|done]. by intros [= <-].
  - destruct (supervisor s); simpl; [|done]. by intros [= <-].
  - unfold claim_step. destruct (claims s !! i) as [c|]; simpl; [|done].
    destruct (claim_pc c) as [|m|m|].
    + by destruct (pending c); intros [= <-].
    + case_decide; [|done]. intros [= <-]. simpl. rewrite handed_off_snoc.
      split_and!.
      * intros m' [?| ->%list_elem_of_singleton]%elem_of_app; set_solver.
      * intros. apply elem_of_app. eauto.
      * intros o m' [Ho| ->%list_elem_of_singleton]%elem_of_app; [|done].
        intros. apply elem_of_app. eauto.
    + intros [= <-]. simpl. rewrite handed_off_snoc, app_nil_r.
      split_and!; [done..|].
      intros o m' [Ho| ->%list_elem_of_singleton]%elem_of_app; [eauto|done].
    + done.
  - unfold worker_step. destruct (workers s !! j) as [w|] eqn:Hj; simpl; [|done].
    destruct (worker_pc w) as [|m i] eqn:Hpc.
    + destruct (queue s) as [|m q] eqn:Hqueue; [done|].
      assert (m ∈ handed_off (trace s)) as Hm by (apply Hq; left).
      assert (∀ m', m' ∈ q → m' ∈ handed_off (trace s)) as Hq'
        by (intros; apply Hq; by right).
      destruct (worker_iter _ _) as [r|err b|]; intros [= <-]; simpl;
        rewrite handed_off_snoc, app_nil_r; (split_and!; [done| |]).
      * intros j' w' m' i' [(_ & <- & _)|[_ ?]]%list_lookup_insert_Some; simpl;
          [by intros [= <- _]|eauto].
      * intros o m' [Ho| ->%list_elem_of_singleton]%elem_of_app; [eauto|].
        by intros [= <-].
      * done.
      * intros o m' [Ho| ->%list_elem_of_singleton]%elem_of_app; [eauto|].
        by intros [= <-].
      * done.
      * intros o m' [Ho| ->%list_elem_of_singleton]%elem_of_app; [eauto|done].
    + intros [= <-]. simpl. rewrite handed_off_snoc, app_nil_r. split_and!; [done| |].
      * intros j' w' m' i' [(_ & <- & _)|[_ ?]]%list_lookup_insert_Some; simpl;
          [done|eauto].
      * intros o m' [Ho| ->%list_elem_of_singleton]%elem_of_app; [eauto|].
        intros [= <-]. eauto.
  - destruct (drain s); [|done]. unfold drain_step.
    destruct (drain_pc s); [destruct (errors s); [done|]|]; intros [= <-]; [done|].
    simpl. rewrite handed_off_snoc, app_nil_r.
    split_and!; [done..|]. intros o m [Ho| ->%list_elem_of_singleton]%elem_of_app; [eauto|done].
Qed.

Lemma launch_fresh s t : fresh s → fresh (launch s t).
Proof.
  intros (? & ? & ? & ? & ?). destruct t; (split_and!; simpl; try done).
  apply Forall_app. split; [done|]. by apply Forall_singleton.
Qed.

Lemma spawn_fresh tasks : fresh (spawn tasks).
Proof.
  unfold spawn. assert (fresh idle) as Hidle by (split_and!; simpl; by try constructor).
  revert Hidle. generalize idle. induction tasks as [|t tasks IH]; intros s Hs; simpl; [done|].
  apply IH. by apply launch_fresh.
Qed.

Lemma fresh_balanced s : fresh s → balanced s.
Proof. intros (Ht & Hc & _). unfold balanced. by rewrite Ht, Hc. Qed.

Lemma fresh_traced s : fresh s → traced s.
Proof.
  intros (Ht & _ & Hq & _ & Hw). unfold traced. rewrite Ht, Hq. split_and!.
  - by intros m ?%elem_of_nil.
  - intros j w m i Hj Hpc. eapply Forall_lookup_1 in Hw; [|done]. simpl in Hw. congruence.
  - by intros o m ?%elem_of_nil.
Qed.

Lemma run_balanced tasks acts s : run (spawn tasks) acts = Some s → balanced s.
Proof.
  apply (run_invariant balanced); [apply exec_balanced|].
  apply fresh_balanced, spawn_fresh.
Qed.

Lemma run_traced tasks acts s : run (spawn tasks) acts = Some s → traced s.
Proof.
  apply (run_invariant traced); [apply exec_traced|].
  apply fresh_traced, spawn_fresh.
Qed.

(** Once the send has gone through, the handler stands at [MarkMessage]. *)
Lemma handoff_then_mark s i c m s' :
  claims s !! i = Some c → claim_pc c = AtSend m → exec s (ClaimStep i) = Some s' →
  trace s' = trace s ++ [HandedOff m] ∧
  ∃ c', claims s' !! i = Some c' ∧ claim_pc c' = AtMark m.
Proof.
  intros Hi Hpc. unfold exec, claim_step. destruct (crashed s); [done|].
  rewrite Hi. simpl. rewrite Hpc. case_decide; [|done]. intros [= <-]. simpl.
  split; [done|]. exists (at_pc c (AtMark m)). split; [|done].
  apply list_lookup_insert_eq. by eapply lookup_lt_Some.
Qed.

(** The statement [session.MarkMessage(message, "")] is never blocked. *)
Lemma mark_enabled s i c m :
  crashed s = false → claims s !! i = Some c → claim_pc c = AtMark m →
  ∃ s', exec s (ClaimStep i) = Some s' ∧ trace s' = trace s ++ [Marked m] ∧
        queue s' = queue s ∧ workers s' = workers s.
Proof.
  intros Hc Hi Hpc. unfold exec, claim_step. rewrite Hc, Hi. simpl. rewrite Hpc.
  by eexists.
Qed.

(** ** The supervising loop *)

Lemma supervise_snoc rets r : supervise (rets ++ [r]) = sup_iter (supervise rets) r.
Proof. unfold supervise. by rewrite foldl_snoc. Qed.

Lemma supervise_calls rets : consume_calls (supervise rets) = S (length rets).
Proof.
  induction rets as [|r rets IH] using rev_ind; [done|].
  rewrite supervise_snoc, length_app. simpl. rewrite IH. lia.
Qed.

Lemma supervise_logged rets : sup_logged (supervise rets) = omap id rets.
Proof.
  induction rets as [|r rets IH] using rev_ind; [done|].
  rewrite supervise_snoc, omap_app. simpl. rewrite IH.
  destruct r; simpl; [done|]. by rewrite app_nil_r.
Qed.

Lemma exec_supervisor s a s' st :
  supervisor s = Some st → exec s a = Some s' →
  supervisor s' = Some (foldl sup_iter st (returns [a])).
Proof.
  unfold exec. intros Hs. destruct (crashed s); [done|].
  destruct a as [r|err|ms|i|j|].
  - rewrite Hs. simpl. intros [= <-]. by destruct r.
  - destruct (drain s); [|done]. by intros [= <-].
  - rewrite Hs. simpl. by intros [= <-].
  - unfold claim_step. destruct (claims s !! i) as [c|]; simpl; [|done].
    destruct (claim_pc c); [destruct (pending c)| case_decide | |];
      try done; by intros [= <-].
  - unfold worker_step. destruct (workers s !! j) as [w|]; simpl; [|done].
    destruct (worker_pc w); [destruct (queue s); [done|]; destruct (worker_iter _ _)|];
      by intros [= <-].
  - destruct (drain s); [|done]. unfold drain_step.
    destruct (drain_pc s); [destruct (errors s); [done|]|]; by intros [= <-].
Qed.

Lemma run_supervisor s acts s' st :
  supervisor s = Some st → run s acts = Some s' →
  supervisor s' = Some (foldl sup_iter st (returns acts)).
Proof.
  revert s st. induction acts as [|a acts IH]; intros s st Hs; simpl.
  - by intros [= <-].
  - destruct (exec s a) as [s1|] eqn:He; simpl; [|done]. intros Hrun.
    pose proof (exec_supervisor _ _ _ _ Hs He) as Hs1.
    rewrite (IH _ _ Hs1 Hrun). unfold returns. simpl. by destruct a.
Qed.

Lemma spawn_Start_supervisor ctx name ser out cg :
  newConsumerGroup (resolved ctx name) = Ok cg →
  supervisor (spawn (Start ctx name ser out).2) = Some sup_init.
Proof.
  intros Hcg. rewrite (Start_Ok _ _ _ _ _ Hcg). unfold spawn. simpl.
  generalize (Z.to_nat (Workers (resolved ctx name))). intros n.
  match goal with |- supervisor (foldl _ ?s0 _) = _ =>
    assert (supervisor s0 = Some sup_init) as Hs0 by done; revert Hs0; generalize s0 end.
  induction n as [|n IH]; intros s0 Hs0; simpl; [done|]. by apply IH.
Qed.

(** ** The worker loop *)

Lemma worker_iter_registered f b : worker_iter (Some f) b ≠ Panic.
Proof. unfold worker_iter. destruct (f b) as [i [e|]]; done. Qed.

Lemma worker_cons f b bs :
  worker (Some f) (b :: bs) = worker_iter (Some f) b :: worker (Some f) bs.
Proof.
  simpl. unfold worker_iter. by destruct (f b) as [i [e|]].
Qed.

Lemma worker_app f bs bs' :
  worker (Some f) (bs ++ bs') = worker (Some f) bs ++ worker (Some f) bs'.
Proof.
  induction bs as [|b bs IH]; [done|].
  rewrite <- app_comm_cons, !worker_cons, IH. done.
Qed.

Lemma worker_length f bs : length (worker (Some f) bs) = length bs.
Proof.
  induction bs as [|b bs IH]; [done|]. rewrite worker_cons. simpl. by rewrite IH.
Qed.

Lemma forwards_cons o os :
  forwards (o :: os) =
  match o with Forward i => i :: forwards os | _ => forwards os end.
Proof. by destruct o. Qed.

Lemma forwards_app os os' : forwards (os ++ os') = forwards os ++ forwards os'.
Proof. apply omap_app. Qed.

Lemma drops_app os os' : drops (os ++ os') = drops os ++ drops os'.
Proof. apply omap_app. Qed.

Lemma worker_forwards_decoded f bs b i :
  b ∈ bs → f b = (i, None) → i ∈ forwards (worker (Some f) bs).
Proof.
  intros Hb Hf. induction bs as [|b' bs IH]; [by apply elem_of_nil in Hb|].
  rewrite worker_cons, forwards_cons.
  apply elem_of_cons in Hb as [<-|Hb].
  - unfold worker_iter. rewrite Hf. left.
  - destruct (worker_iter _ b'); [right| |]; auto.
Qed.

Lemma worker_nil_panics b bs : worker None (b :: bs) = [Panic].
Proof. done. Qed.

(** ** The claims about the ingress consumer *)

(** C1, where the code departs from it. [Start] does not look at the
    serialization name: with a name that [getUnmarshal] does not know and a
    session that opens, [Start] returns no error, every worker it launches
    holds the nil decoder, and a worker panics on the first payload it
    receives. *)
Theorem Start_accepts_unregistered_format ctx name ser out cg b bs :
  ser ≠ "json" → ser ≠ "spb" → ser ≠ "pb" →
  newConsumerGroup (resolved ctx name) = Ok cg →
  (Start ctx name ser out).1 = None ∧
  (∀ k o c, Worker k o c ∈ (Start ctx name ser out).2 →
     getUnmarshal (serialization k) = None) ∧
  worker (getUnmarshal ser) (b :: bs) = [Panic].
Proof.
  intros Hj Hs Hp Hcg. pose proof (getUnmarshal_unregistered ser Hj Hs Hp) as Hnil.
  rewrite (Start_Ok _ _ _ _ _ Hcg), Hnil. simpl. split_and!; [done| |done].
  intros k o c [?|[?|Hw]%elem_of_cons]%elem_of_cons; [done..|].
  by apply elem_of_replicate in Hw as [[= -> _ _] _].
Qed.

(** C2, as the code has it. [Start] resolves the broker addresses, the topic
    and the worker count from the settings of the named ingress; the session
    is opened on the resolved addresses under the fixed group identity
    ["tcpdog"], whatever the settings say, and consumption is for the
    resolved topic. *)
Theorem Start_opens_session_for_resolved_topic ctx name ser out cg :
  newConsumerGroup (resolved ctx name) = Ok cg →
  let kCfg :=
    kafkaConfig
      (config.Ingress_Config
         (config.index (config.ServerConfig_Ingress (config.ctx_server ctx)) name)) in
  addrs (group cg) = Brokers kCfg ∧
  groupID (group cg) = "tcpdog" ∧
  Start ctx name ser out =
    (None,
     ErrorDrain (group cg)
       :: Supervisor (group cg) [Topic kCfg] {| ch := {| capacity := 1 |} |}
       :: replicate (Z.to_nat (Workers kCfg))
            (Worker {| group := group cg; serialization := ser |} out {| capacity := 1 |})).
Proof.
  intros Hcg kCfg. split_and!.
  - by apply newConsumerGroup_Ok in Hcg as (sc & _ & _ & ->).
  - by apply newConsumerGroup_Ok in Hcg as (sc & _ & _ & ->).
  - by apply Start_Ok.
Qed.

(** C3, as the code has it. In every state that the spawned goroutines can
    reach, under any schedule and any decoder: the messages handed to the
    decode queue are exactly the marked ones and those whose handler stands
    at [MarkMessage]; a handler whose send goes through stands at
    [MarkMessage] for that message next; in a process that has not crashed
    that statement can always run, whatever the workers have done with the
    payload; and every message whose decoding has finished, with or without
    an error, or which has been forwarded, is marked or about to be. *)
Theorem mark_follows_handoff tasks acts s :
  run (spawn tasks) acts = Some s →
  handed_off (trace s) ≡ₚ marked (trace s) ++ at_mark (claims s) ∧
  (∀ i c m s', claims s !! i = Some c → claim_pc c = AtSend m →
     exec s (ClaimStep i) = Some s' →
     trace s' = trace s ++ [HandedOff m] ∧
     ∃ c', claims s' !! i = Some c' ∧ claim_pc c' = AtMark m) ∧
  (∀ i c m, crashed s = false → claims s !! i = Some c → claim_pc c = AtMark m →
     ∃ s', exec s (ClaimStep i) = Some s' ∧ trace s' = trace s ++ [Marked m]) ∧
  (∀ o m, o ∈ trace s → completes o = Some m →
     m ∈ marked (trace s) ++ at_mark (claims s)).
Proof.
  intros Hrun. pose proof (run_balanced _ _ _ Hrun) as Hb.
  pose proof (run_traced _ _ _ Hrun) as (_ & _ & Ht). split_and!.
  - exact Hb.
  - intros i c m s'. apply handoff_then_mark.
  - intros i c m Hc Hi Hpc.
    destruct (mark_enabled s i c m Hc Hi Hpc) as (s' & ? & ? & _). eauto.
  - intros o m Ho Hm. unfold balanced in Hb. rewrite <- Hb. eauto.
Qed.

(** C4. After any run of the system that [Start] spawned, the supervising
    goroutine is still there, inside a call of [Consume]: it has made one
    call more than there were returns, it has logged exactly the errors
    returned, and whatever the running call returns next, success or error,
    it calls again. *)
Theorem supervisor_retries_every_return ctx name ser out cg acts s :
  newConsumerGroup (resolved ctx name) = Ok cg →
  run (spawn (Start ctx name ser out).2) acts = Some s →
  supervisor s = Some (supervise (returns acts)) ∧
  consume_calls (supervise (returns acts)) = S (length (returns acts)) ∧
  sup_logged (supervise (returns acts)) = omap id (returns acts) ∧
  (crashed s = false → ∀ r, ∃ s',
     exec s (ConsumeReturns r) = Some s' ∧
     supervisor s' = Some (supervise (returns acts ++ [r]))).
Proof.
  intros Hcg Hrun.
  pose proof (run_supervisor _ _ _ _ (spawn_Start_supervisor _ _ ser out _ Hcg) Hrun) as Hs.
  split_and!; [done|apply supervise_calls|apply supervise_logged|].
  intros Hc r. unfold exec. rewrite Hc, Hs. simpl. eexists. split; [done|].
  rewrite supervise_snoc. by destruct r.
Qed.

(** C5. A payload that the flow's decoder rejects is logged and dropped, and
    the worker goes on: it handles every payload of the stream exactly once,
    the rejected one yields a log line and nothing on the output queue, the
    payloads before and after it are treated as if it had not been there,
    and every later payload that decodes is forwarded. *)
Theorem worker_drops_and_continues ser f pre b post i0 e :
  getUnmarshal ser = Some f → f b = (i0, Some e) →
  let os := worker (getUnmarshal ser) (pre ++ b :: post) in
  os = worker (Some f) pre ++ Dropped e b :: worker (Some f) post ∧
  length os = length (pre ++ b :: post) ∧
  forwards os = forwards (worker (Some f) pre) ++ forwards (worker (Some f) post) ∧
  drops os = drops (worker (Some f) pre) ++ (e, b) :: drops (worker (Some f) post) ∧
  (∀ b' i', b' ∈ post → f b' = (i', None) → i' ∈ forwards os).
Proof.
  intros Hser Hf os. subst os. rewrite Hser.
  assert (worker (Some f) (pre ++ b :: post)
          = worker (Some f) pre ++ Dropped e b :: worker (Some f) post) as Hos.
  { rewrite worker_app, worker_cons. unfold worker_iter at 1. by rewrite Hf. }
  split_and!.
  - exact Hos.
  - apply worker_length.
  - by rewrite Hos, forwards_app, forwards_cons.
  - by rewrite Hos, drops_app.
  - intros b' i' Hb' Hf'. apply (worker_forwards_decoded f _ b'); [|done].
    apply elem_of_app. right. by right.
Qed.

(** C10. When the session cannot be created, [Start] returns the error and
    launches nothing, and no schedule makes the resulting system send on the
    output queue; when it can, [Start] returns nil together with the
    goroutines it launched: the error drain, the supervisor and the
    configured number of workers. *)
Theorem Start_returns_error_or_spawns ctx name ser out :
  (∀ err, newConsumerGroup (resolved ctx name) = Fail err →
     Start ctx name ser out = (Some err, []) ∧
     ∀ acts s, run (spawn (Start ctx name ser out).2) acts = Some s →
       s = idle ∧ sent (trace s) = []) ∧
  (∀ cg, newConsumerGroup (resolved ctx name) = Ok cg →
     (Start ctx name ser out).1 = None ∧
     (Start ctx name ser out).2 =
       ErrorDrain (group cg)
         :: Supervisor (group cg) [Topic (resolved ctx name)] {| ch := {| capacity := 1 |} |}
         :: replicate (Z.to_nat (Workers (resolved ctx name)))
              (Worker {| group := group cg; serialization := ser |} out {| capacity := 1 |})).
Proof.
  split.
  - intros err Hcg. rewrite (Start_Fail _ _ _ _ _ Hcg). split; [done|].
    intros acts s. simpl. unfold spawn. simpl. destruct acts as [|a acts]; simpl.
    + by intros [= <-].
    + by destruct a as [| | |[|?]|[|?]|].
  - intros cg Hcg. by rewrite (Start_Ok _ _ _ _ _ Hcg).
Qed.
End IngressFacts.

(** ** The ingress consumer on concrete inputs *)

Section IngressRuns.
Import kafka.
#[local] Existing Instance sample.broker.
#[local] Existing Instance sample.wire.

Lemma sample_session :
  newConsumerGroup (resolved sample.ctx "kafka") = Ok sample.session.
Proof. vm_compute. reflexivity. Qed.

Lemma sample_offline :
  newConsumerGroup (resolved sample.ctx "offline")
  = Fail (Err "kafka: client has run out of available brokers").
Proof. vm_compute. reflexivity. Qed.

(** The name ["xml"] is accepted by [Start]; the first payload kills the
    worker. *)
Lemma Start_accepts_unregistered_format_witness :
  (Start sample.ctx "kafka" "xml" "sink").1 = None ∧
  (∀ k o c, Worker k o c ∈ (Start sample.ctx "kafka" "xml" "sink").2 →
     getUnmarshal (serialization k) = None) ∧
  worker (getUnmarshal "xml") [Value (sample.msg 0 "{}")] = [Panic].
Proof.
  apply (Start_accepts_unregistered_format sample.ctx "kafka" "xml" "sink" sample.session);
    [done..|exact sample_session].
Defined.

(** The same on the running system: one worker step after the hand-off, the
    process has crashed, the message has not been marked and nothing runs
    any more. *)
Example unregistered_format_crashes_on_first_message :
  let s :=
    sample.outcome (Start sample.ctx "kafka" "xml" "sink").2
      [ClaimStarts [sample.msg 0 "{}"]; ClaimStep 0; ClaimStep 0; WorkerStep 0] in
  crashed s = true ∧
  trace s = [HandedOff (sample.msg 0 "{}"); Panicked] ∧
  ∀ a, exec s a = None.
Proof.
  intros s. assert (crashed s = true) as Hc by (vm_compute; reflexivity).
  split_and!; [done|vm_compute; reflexivity|].
  intros a. unfold exec. by rewrite Hc.
Qed.

(** C2, against the claim as stated: the ingress ["kafka"] is configured with
    the group identity ["analytics"], and the session of its supervisor is
    opened under ["tcpdog"]. *)
Lemma configured_group_is_not_used :
  config.Ingress_Config (config.index (config.ServerConfig_Ingress sample.server) "kafka")
    !! "group" = Some (config.VString "analytics") ∧
  Group (resolved sample.ctx "kafka") = "analytics" ∧
  Supervisor (group sample.session) ["events"] {| ch := {| capacity := 1 |} |}
    ∈ (Start sample.ctx "kafka" "json" "sink").2 ∧
  groupID (group sample.session) = "tcpdog" ∧
  groupID (group sample.session) ≠ Group (resolved sample.ctx "kafka").
Proof.
  assert (Group (resolved sample.ctx "kafka") = "analytics") as HG
    by (vm_compute; reflexivity).
  assert (Topic (resolved sample.ctx "kafka") = "events") as HT
    by (vm_compute; reflexivity).
  rewrite (Start_Ok _ _ _ _ _ sample_session), HG, HT.
  split_and!; [by vm_compute|done| |done..].
  right. left.
Qed.

Lemma Start_opens_session_for_resolved_topic_witness :
  addrs (group sample.session) = Brokers (resolved sample.ctx "kafka") ∧
  groupID (group sample.session) = "tcpdog" ∧
  Start sample.ctx "kafka" "json" "sink" =
    (None,
     ErrorDrain (group sample.session)
       :: Supervisor (group sample.session) [Topic (resolved sample.ctx "kafka")]
            {| ch := {| capacity := 1 |} |}
       :: replicate (Z.to_nat (Workers (resolved sample.ctx "kafka")))
            (Worker {| group := group sample.session; serialization := "json" |}
               "sink" {| capacity := 1 |})).
Proof.
  exact (Start_opens_session_for_resolved_topic sample.ctx "kafka" "json" "sink"
           sample.session sample_session).
Defined.

(** C3, against the claim as stated: under the schedule [sample.worker_first] the
    message is decoded and forwarded before it is marked. *)
Lemma forwarded_before_marked :
  let m := sample.msg 0 "{}" in
  let i := RMap [("raw", config.VString "{}")] in
  ∃ s,
    run (spawn (Start sample.ctx "kafka" "json" "sink").2) sample.worker_first = Some s ∧
    trace s = [HandedOff m; Decoded m i; Forwarded "sink" m i; Marked m] ∧
    ¬ marked_first (trace s).
Proof.
  intros m i.
  assert (trace <$> run (spawn (Start sample.ctx "kafka" "json" "sink").2) sample.worker_first
          = Some [HandedOff m; Decoded m i; Forwarded "sink" m i; Marked m]) as Htr
    by (vm_compute; reflexivity).
  destruct (run _ sample.worker_first) as [s|]; [|discriminate].
  injection Htr as Htr. exists s. split_and!; [done..|].
  rewrite Htr. intros Hfirst.
  specialize (Hfirst [HandedOff m] (Decoded m i) [Forwarded "sink" m i; Marked m] m
                eq_refl eq_refl).
  by apply list_elem_of_singleton in Hfirst.
Qed.

Lemma mark_follows_handoff_witness :
  let s :=
    sample.outcome (Start sample.ctx "kafka" "json" "sink").2 sample.rejected_then_marked in
  handed_off (trace s) ≡ₚ marked (trace s) ++ at_mark (claims s) ∧
  (∀ i c m s', claims s !! i = Some c → claim_pc c = AtSend m →
     exec s (ClaimStep i) = Some s' →
     trace s' = trace s ++ [HandedOff m] ∧
     ∃ c', claims s' !! i = Some c' ∧ claim_pc c' = AtMark m) ∧
  (∀ i c m, crashed s = false → claims s !! i = Some c → claim_pc c = AtMark m →
     ∃ s', exec s (ClaimStep i) = Some s' ∧ trace s' = trace s ++ [Marked m]) ∧
  (∀ o m, o ∈ trace s → completes o = Some m →
     m ∈ marked (trace s) ++ at_mark (claims s)).
Proof.
  apply (mark_follows_handoff (Start sample.ctx "kafka" "json" "sink").2
           sample.rejected_then_marked).
  vm_compute. reflexivity.
Defined.

(** At the end of that schedule the rejected message has been handed off and
    dropped, it is not marked yet, and its handler marks it on its next
    step. *)
Example rejected_message_is_marked :
  let s := sample.outcome (Start sample.ctx "kafka" "json" "sink").2 sample.rejected_then_marked in
  trace s = [HandedOff (sample.msg 7 "");
             DecodeFailed (sample.msg 7 "") (Err "unexpected end of JSON input")] ∧
  at_mark (claims s) = [sample.msg 7 ""] ∧
  marked (trace (sample.outcome (Start sample.ctx "kafka" "json" "sink").2
                   (sample.rejected_then_marked ++ [ClaimStep 0])))
  = [sample.msg 7 ""].
Proof. split_and!; vm_compute; reflexivity. Qed.

Lemma supervisor_retries_every_return_witness :
  let acts := [ConsumeReturns (Some (Err "rebalance")); ConsumeReturns None] in
  let s := sample.outcome (Start sample.ctx "kafka" "json" "sink").2 acts in
  supervisor s = Some (supervise (returns acts)) ∧
  consume_calls (supervise (returns acts)) = 3 ∧
  sup_logged (supervise (returns acts)) = [Err "rebalance"] ∧
  (crashed s = false → ∀ r, ∃ s',
     exec s (ConsumeReturns r) = Some s' ∧
     supervisor s' = Some (supervise (returns acts ++ [r]))).
Proof.
  intros acts s.
  apply (supervisor_retries_every_return sample.ctx "kafka" "json" "sink" sample.session
           acts s sample_session).
  vm_compute. reflexivity.
Defined.

Lemma worker_drops_and_continues_witness :
  let bs := Value <$> [sample.msg 0 "{a}"; sample.msg 1 ""; sample.msg 2 "{b}"] in
  forwards (worker (getUnmarshal "json") bs)
  = [RMap [("raw", config.VString "{a}")]; RMap [("raw", config.VString "{b}")]] ∧
  drops (worker (getUnmarshal "json") bs)
  = [(Err "unexpected end of JSON input", Value (sample.msg 1 ""))].
Proof.
  intros bs.
  edestruct (worker_drops_and_continues "json"
               (λ b, let '(m, err) := json_Unmarshal b in (RMap m, err))
               [Value (sample.msg 0 "{a}")]
               (Value (sample.msg 1 "")) [Value (sample.msg 2 "{b}")])
    as (_ & _ & Hf & Hd & _); [reflexivity|reflexivity|].
  split; [exact Hf|exact Hd].
Defined.

Lemma Start_returns_error_or_spawns_witness :
  Start sample.ctx "offline" "json" "sink"
    = (Some (Err "kafka: client has run out of available brokers"), []) ∧
  (Start sample.ctx "kafka" "json" "sink").1 = None ∧
  length (Start sample.ctx "kafka" "json" "sink").2 = 4.
Proof.
  destruct (Start_returns_error_or_spawns sample.ctx "offline" "json" "sink") as [Hfail _].
  destruct (Start_returns_error_or_spawns sample.ctx "kafka" "json" "sink") as [_ Hok].
  destruct (Hfail _ sample_offline) as [-> _].
  destruct (Hok _ sample_session) as [-> ->].
  split_and!; [done..|]. simpl. rewrite length_replicate. by vm_compute.
Defined.

End IngressRuns.

(** * Further properties of the ingress consumer *)

Section IngressCoverage.
Import kafka.
Context {B : Broker} {W : Wire}.

Implicit Types (s : Sys) (acts : list Action) (tr : list Obs) (m : Message).

(** ** Lists of goroutines updated in place *)

Lemma omap_lookup_split {X Y} (g : X → option Y) (l : list X) i x :
  l !! i = Some x →
  omap g l = omap g (take i l) ++ option_list (g x) ++ omap g (drop (S i) l).
Proof.
  intros Hi. rewrite <- (take_drop_middle l i x Hi) at 1.
  rewrite omap_app. simpl. by destruct (g x).
Qed.

Lemma omap_insert_split {X Y} (g : X → option Y) (l : list X) i x y :
  l !! i = Some x →
  omap g (<[i := y]> l) = omap g (take i l) ++ option_list (g y) ++ omap g (drop (S i) l).
Proof.
  intros Hi. rewrite insert_take_drop by (by eapply lookup_lt_Some).
  rewrite omap_app. simpl. by destruct (g y).
Qed.

Lemma bind_lookup_split {X Y} (g : X → list Y) (l : list X) i x :
  l !! i = Some x →
  l ≫= g = (take i l ≫= g) ++ g x ++ (drop (S i) l ≫= g).
Proof.
  intros Hi. rewrite <- (take_drop_middle l i x Hi) at 1. by rewrite bind_app.
Qed.

Lemma bind_insert_split {X Y} (g : X → list Y) (l : list X) i x y :
  l !! i = Some x →
  <[i := y]> l ≫= g = (take i l ≫= g) ++ g y ++ (drop (S i) l ≫= g).
Proof.
  intros Hi. rewrite insert_take_drop by (by eapply lookup_lt_Some).
  by rewrite bind_app.
Qed.

(** A run seen together with the actions that led to it. *)
Lemma run_history (P : list Action → Sys → Prop) s0 acts s :
  P [] s0 →
  (∀ acts s a s', P acts s → exec s a = Some s' → P (acts ++ [a]) s') →
  run s0 acts = Some s → P acts s.
Proof.
  intros H0 Hstep. revert s. induction acts as [|a acts IH] using rev_ind; intros s.
  - by intros [= <-].
  - intros (s1 & Hrun & He)%run_snoc. eauto.
Qed.

(** ** What [Start] spawns *)

Lemma spawn_workers s k out c n :
  foldl launch s (replicate n (Worker k out c)) =
  {| supervisor := supervisor s; drain := drain s; drain_pc := drain_pc s;
     errors := errors s; claims := claims s;
     queue_cap := match n with O => queue_cap s | S _ => capacity c end;
     queue := queue s;
     workers := workers s
                ++ replicate n {| unmarshal := getUnmarshal (serialization k);
                                  out_chan := out; worker_pc := AtRecv |};
     crashed := crashed s; trace := trace s |}.
Proof.
  revert s. induction n as [|n IH]; intros s; simpl.
  - rewrite app_nil_r. by destruct s.
  - rewrite IH. simpl. rewrite <- (assoc_L (++)). by destruct n.
Qed.

(** The system right after a successful [Start]. *)
Lemma spawn_Start ctx name ser out cg :
  newConsumerGroup (resolved ctx name) = Ok cg →
  spawn (Start ctx name ser out).2 =
  {| supervisor := Some sup_init; drain := true; drain_pc := AtErrors; errors := [];
     claims := []; queue_cap := 1; queue := [];
     workers := replicate (Z.to_nat (Workers (resolved ctx name)))
                  {| unmarshal := getUnmarshal ser; out_chan := out; worker_pc := AtRecv |};
     crashed := false; trace := [] |}.
Proof.
  intros Hcg. rewrite (Start_Ok _ _ _ _ _ Hcg). unfold spawn. simpl.
  rewrite spawn_workers. simpl. by destruct (Z.to_nat _).
Qed.

(** ** Projections of a growing trace *)

Lemma forwarded_snoc tr o :
  forwarded (tr ++ [o]) = forwarded tr ++ match o with Forwarded _ m _ => [m] | _ => [] end.
Proof. unfold forwarded. rewrite omap_app. simpl. by destruct o. Qed.

Lemma rejected_snoc tr o :
  rejected (tr ++ [o]) = rejected tr ++ match o with DecodeFailed m _ => [m] | _ => [] end.
Proof. unfold rejected. rewrite omap_app. simpl. by destruct o. Qed.

Lemma kafka_errors_snoc tr o :
  kafka_errors (tr ++ [o])
  = kafka_errors tr ++ match o with LoggedKafka err => [err] | _ => [] end.
Proof. unfold kafka_errors. rewrite omap_app. simpl. by destruct o. Qed.

(** ** Nothing handed off is lost or duplicated *)

Lemma exec_crashed s a s' : exec s a = Some s' → crashed s = false.
Proof. unfold exec. by destruct (crashed s). Qed.

(** A step of the draining goroutine touches nothing but its own statement,
    the channel of errors and the log. *)
Lemma drain_step_frame s s' :
  drain_step s = Some s' →
  claims s' = claims s ∧ queue s' = queue s ∧ workers s' = workers s ∧
  supervisor s' = supervisor s ∧ drain s' = drain s ∧
  queue_cap s' = queue_cap s ∧ crashed s' = crashed s.
Proof.
  unfold drain_step.
  destruct (drain_pc s); [destruct (errors s); [done|]|]; by intros [= <-].
Qed.

Lemma claim_step_frame i s s' :
  claim_step i s = Some s' →
  workers s' = workers s ∧ crashed s' = crashed s ∧ queue_cap s' = queue_cap s ∧
  supervisor s' = supervisor s ∧ drain s' = drain s.
Proof.
  unfold claim_step. destruct (claims s !! i) as [c|]; simpl; [|done].
  destruct (claim_pc c); [destruct (pending c)|case_decide| |]; try done;
    by intros [= <-].
Qed.

Lemma exec_conserved s a s' : conserved s → exec s a = Some s' → conserved s'.
Proof.
  intros Hc He. pose proof (exec_crashed _ _ _ He) as Hlive. specialize (Hc Hlive).
  revert He. unfold exec, conserved. rewrite Hlive.
  destruct a as [r|err|ms|i|j|].
  - destruct (supervisor s); simpl; [|done]. intros [= <-] _.
    destruct r; simpl; [|done].
    by rewrite handed_off_snoc, forwarded_snoc, rejected_snoc, !app_nil_r.
  - destruct (drain s); [|done]. by intros [= <-] _.
  - destruct (supervisor s); simpl; [|done]. by intros [= <-] _.
  - unfold claim_step. destruct (claims s !! i) as [c|]; simpl; [|done].
    destruct (claim_pc c) as [|m|m|].
    + by destruct (pending c); intros [= <-] _.
    + case_decide; [|done]. intros [= <-] _. simpl.
      rewrite handed_off_snoc, forwarded_snoc, rejected_snoc, !app_nil_r, Hc.
      solve_Permutation.
    + intros [= <-] _. simpl.
      by rewrite handed_off_snoc, forwarded_snoc, rejected_snoc, !app_nil_r.
    + done.
  - unfold worker_step. destruct (workers s !! j) as [w|] eqn:Hj; simpl; [|done].
    unfold held in Hc |- *. rewrite (omap_lookup_split _ _ _ _ Hj) in Hc.
    destruct (worker_pc w) as [|m i] eqn:Hpc; simpl in Hc.
    + destruct (queue s) as [|m q]; [done|].
      destruct (worker_iter _ _) as [r|err b|]; intros [= <-]; simpl; [| |done]; intros _.
      * rewrite handed_off_snoc, forwarded_snoc, rejected_snoc, !app_nil_r, Hc.
        rewrite (omap_insert_split _ _ _ _ _ Hj). simpl. solve_Permutation.
      * rewrite handed_off_snoc, forwarded_snoc, rejected_snoc, !app_nil_r, Hc.
        rewrite (omap_lookup_split _ _ _ _ Hj), Hpc. simpl. solve_Permutation.
    + intros [= <-] _. simpl.
      rewrite handed_off_snoc, forwarded_snoc, rejected_snoc, !app_nil_r, Hc.
      rewrite (omap_insert_split _ _ _ _ _ Hj). simpl. solve_Permutation.
  - destruct (drain s); [|done]. unfold drain_step.
    destruct (drain_pc s); [destruct (errors s); [done|]|]; intros [= <-] _; [done|].
    simpl. by rewrite handed_off_snoc, forwarded_snoc, rejected_snoc, !app_nil_r.
Qed.

Lemma fresh_conserved s : fresh s → conserved s.
Proof.
  intros (Ht & _ & Hq & _ & Hw) _. rewrite Ht, Hq. simpl.
  unfold held. induction Hw as [|w ws Hpc _ IH]; simpl; [done|]. by rewrite Hpc.
Qed.

(** ** The decode queue and the workers *)

Lemma worker_step_frame j s s' :
  worker_step j s = Some s' →
  claims s' = claims s ∧ queue_cap s' = queue_cap s ∧
  supervisor s' = supervisor s ∧ drain s' = drain s ∧
  length (workers s') = length (workers s) ∧ length (queue s') ≤ length (queue s).
Proof.
  unfold worker_step. destruct (workers s !! j) as [w|]; simpl; [|done].
  destruct (worker_pc w).
  - destruct (queue s) as [|m q]; [done|].
    destruct (worker_iter _ _); intros [= <-]; simpl;
      rewrite ?length_insert; split_and!; done || lia.
  - intros [= <-]. simpl. rewrite length_insert. by split_and!.
Qed.

(** What no step changes: the capacity of the queue, the number of workers,
    and the presence of the supervisor and of the error drain. *)
Lemma exec_frame s a s' :
  exec s a = Some s' →
  queue_cap s' = queue_cap s ∧ length (workers s') = length (workers s) ∧
  drain s' = drain s ∧ (is_Some (supervisor s') ↔ is_Some (supervisor s)).
Proof.
  unfold exec. destruct (crashed s); [done|]. destruct a as [r|err|ms|i|j|].
  - destruct (supervisor s) eqn:Hs; simpl; [|done]. intros [= <-].
    destruct r; simpl; split_and!; try done; split; by eauto.
  - destruct (drain s) eqn:Hd; [|done]. by intros [= <-].
  - destruct (supervisor s) eqn:Hs; simpl; [|done]. intros [= <-]. simpl.
    by rewrite Hs.
  - intros (-> & _ & -> & -> & ->)%claim_step_frame. by split_and!.
  - intros (_ & -> & -> & -> & -> & _)%worker_step_frame. by split_and!.
  - destruct (drain s) eqn:Hd; [|done].
    intros (_ & _ & -> & -> & -> & -> & _)%drain_step_frame. by split_and!.
Qed.

Lemma exec_bounded s a s' : bounded s → exec s a = Some s' → bounded s'.
Proof.
  unfold bounded, exec. intros Hb. destruct (crashed s); [done|].
  destruct a as [r|err|ms|i|j|].
  - destruct (supervisor s); simpl; [|done]. intros [= <-]. by destruct r.
  - destruct (drain s); [|done]. by intros [= <-].
  - destruct (supervisor s); simpl; [|done]. by intros [= <-].
  - unfold claim_step. destruct (claims s !! i) as [c|]; simpl; [|done].
    destruct (claim_pc c); [destruct (pending c)|case_decide| |]; try done;
      intros [= <-]; simpl; try done.
    rewrite length_app. simpl. lia.
  - intros (_ & -> & _ & _ & _ & ?)%worker_step_frame. lia.
  - destruct (drain s); [|done].
    by intros (_ & -> & _ & _ & _ & -> & _)%drain_step_frame.
Qed.

Lemma run_frame s acts s' :
  run s acts = Some s' →
  queue_cap s' = queue_cap s ∧ length (workers s') = length (workers s) ∧
  drain s' = drain s ∧ (is_Some (supervisor s') ↔ is_Some (supervisor s)).
Proof.
  apply (run_invariant (λ s', queue_cap s' = queue_cap s ∧
           length (workers s') = length (workers s) ∧
           drain s' = drain s ∧ (is_Some (supervisor s') ↔ is_Some (supervisor s)))).
  - intros s1 a s2 (H1 & H2 & H3 & H4) (H1' & H2' & H3' & H4')%exec_frame.
    split_and!; [congruence..|]. by rewrite H4'.
  - done.
Qed.

Lemma held_length ws : length (held ws) ≤ length ws.
Proof.
  unfold held. induction ws as [|w ws IH]; simpl; [done|].
  destruct (worker_pc w); simpl;
    match goal with
    | |- context [list_omap ?X ?Y ?g ?l] => change (list_omap X Y g l) with (omap g l)
    end; lia.
Qed.

(** ** What the workers decode *)

Lemma exec_decoding u out s a s' :
  decoding u out s → exec s a = Some s' → decoding u out s'.
Proof.
  unfold exec, decoding. intros (Hw & Hf & Hd & Hc). destruct (crashed s) eqn:Hlive; [done|].
  destruct a as [r|err|ms|i|j|].
  - destruct (supervisor s); simpl; [|done]. intros [= <-].
    destruct r; simpl; [|done]. split_and!; [done| | |done].
    + intros ? ? ? [?| [=]%list_elem_of_singleton]%elem_of_app. eauto.
    + intros ? ? [?| [=]%list_elem_of_singleton]%elem_of_app. eauto.
  - destruct (drain s); [|done]. by intros [= <-].
  - destruct (supervisor s); simpl; [|done]. by intros [= <-].
  - unfold claim_step. destruct (claims s !! i) as [c|]; simpl; [|done].
    destruct (claim_pc c); [destruct (pending c)|case_decide| |]; try done;
      intros [= <-]; simpl; try done; (split_and!; [done| | |done]).
    + intros ? ? ? [?| [=]%list_elem_of_singleton]%elem_of_app. eauto.
    + intros ? ? [?| [=]%list_elem_of_singleton]%elem_of_app. eauto.
    + intros ? ? ? [?| [=]%list_elem_of_singleton]%elem_of_app. eauto.
    + intros ? ? [?| [=]%list_elem_of_singleton]%elem_of_app. eauto.
  - unfold worker_step. destruct (workers s !! j) as [w|] eqn:Hj; simpl; [|done].
    destruct (Hw j w Hj) as (Hu & Ho & Hpcw).
    destruct (worker_pc w) as [|m i] eqn:Hpc.
    + destruct (queue s) as [|m q]; [done|]. rewrite Hu. unfold worker_iter.
      destruct u as [f|].
      * destruct (f (Value m)) as [i [e|]] eqn:Hfm; intros [= <-]; simpl.
        -- split_and!; [done| | |done].
           ++ intros ? ? ? [?| [=]%list_elem_of_singleton]%elem_of_app. eauto.
           ++ intros ? ? [?| [= -> ->]%list_elem_of_singleton]%elem_of_app; eauto.
        -- split_and!; [| | |done].
           ++ intros j' w' [(_ & <- & _)|[_ ?]]%list_lookup_insert_Some; [|eauto].
              simpl. split_and!; [done..|]. intros m' i' [= <- <-]. eauto.
           ++ intros ? ? ? [?| [=]%list_elem_of_singleton]%elem_of_app. eauto.
           ++ intros ? ? [?| [=]%list_elem_of_singleton]%elem_of_app. eauto.
      * intros [= <-]. simpl. split_and!; [done| | |by intros [? ?]].
        -- intros ? ? ? [?| [=]%list_elem_of_singleton]%elem_of_app. eauto.
        -- intros ? ? [?| [=]%list_elem_of_singleton]%elem_of_app. eauto.
    + intros [= <-]. simpl. split_and!; [| | |done].
      * intros j' w' [(_ & <- & _)|[_ ?]]%list_lookup_insert_Some; [|eauto].
        simpl. by split_and!.
      * intros ? ? ? [?| [= -> -> ->]%list_elem_of_singleton]%elem_of_app; eauto.
      * intros ? ? [?| [=]%list_elem_of_singleton]%elem_of_app. eauto.
  - destruct (drain s); [|done]. unfold drain_step.
    destruct (drain_pc s); [destruct (errors s); [done|]|]; intros [= <-]; [done|].
    simpl. split_and!; [done| | |done].
    + intros ? ? ? [?| [=]%list_elem_of_singleton]%elem_of_app. eauto.
    + intros ? ? [?| [=]%list_elem_of_singleton]%elem_of_app. eauto.
Qed.

Lemma spawn_Start_decoding ctx name ser out cg :
  newConsumerGroup (resolved ctx name) = Ok cg →
  decoding (getUnmarshal ser) out (spawn (Start ctx name ser out).2).
Proof.
  intros Hcg. rewrite (spawn_Start _ _ _ _ _ Hcg). unfold decoding. simpl.
  split_and!; [|by intros o m i ?%elem_of_nil|by intros m e ?%elem_of_nil|done].
  intros j w [-> _]%lookup_replicate. by split_and!.
Qed.

(** ** The history of a run *)

Lemma claimed_snoc acts a :
  claimed (acts ++ [a]) = claimed acts ++ match a with ClaimStarts ms => [ms] | _ => [] end.
Proof. unfold claimed. rewrite omap_app. simpl. by destruct a. Qed.

Lemma arrived_snoc acts a :
  arrived (acts ++ [a]) = arrived acts ++ match a with SessionError err => [err] | _ => [] end.
Proof. unfold arrived. rewrite omap_app. simpl. by destruct a. Qed.

Lemma merged_snoc_l {A} (l1 l2 l : list A) x :
  merged l1 l2 l → merged (l1 ++ [x]) l2 (l ++ [x]).
Proof. induction 1; simpl; by repeat constructor. Qed.

Lemma merged_snoc_r {A} (l1 l2 l : list A) x :
  merged l1 l2 l → merged l1 (l2 ++ [x]) (l ++ [x]).
Proof. induction 1; simpl; by repeat constructor. Qed.

(** A step of a handler or of a worker logs nothing about the session and
    leaves the supervisor, the draining goroutine and the channel of errors
    as they are. *)
Lemma claim_step_errors i s s' :
  claim_step i s = Some s' →
  kafka_errors (trace s') = kafka_errors (trace s) ∧
  supervisor s' = supervisor s ∧ drain_pc s' = drain_pc s ∧ errors s' = errors s.
Proof.
  unfold claim_step. destruct (claims s !! i) as [c|]; simpl; [|done].
  destruct (claim_pc c); [destruct (pending c)|case_decide| |]; try done;
    intros [= <-]; simpl; try done; by rewrite kafka_errors_snoc, app_nil_r.
Qed.

Lemma worker_step_errors j s s' :
  worker_step j s = Some s' →
  kafka_errors (trace s') = kafka_errors (trace s) ∧
  supervisor s' = supervisor s ∧ drain_pc s' = drain_pc s ∧ errors s' = errors s.
Proof.
  unfold worker_step. destruct (workers s !! j) as [w|]; simpl; [|done].
  destruct (worker_pc w); [destruct (queue s); [done|]; destruct (worker_iter _ _)|];
    intros [= <-]; simpl; by rewrite kafka_errors_snoc, app_nil_r.
Qed.

Lemma exec_in_transit acts s a s' :
  in_transit acts s → exec s a = Some s' → in_transit (acts ++ [a]) s'.
Proof.
  unfold exec, in_transit. intros (drained & Harr & Hlog).
  destruct (crashed s); [done|]. rewrite arrived_snoc.
  destruct a as [r|err|ms|i|j|].
  - destruct (supervisor s) as [st|]; simpl; [|done]. intros [= <-].
    exists drained. rewrite app_nil_r. simpl in Hlog.
    destruct r as [err|]; simpl; [|done]. split; [done|].
    rewrite kafka_errors_snoc. by apply merged_snoc_l.
  - destruct (drain s); [|done]. intros [= <-]. exists drained. simpl.
    split; [|done]. by rewrite Harr, <- !(assoc_L (++)).
  - destruct (supervisor s) eqn:Hs; simpl; [|done]. intros [= <-]. exists drained.
    simpl. by rewrite Hs, app_nil_r.
  - intros (-> & -> & -> & ->)%claim_step_errors. exists drained. by rewrite app_nil_r.
  - intros (-> & -> & -> & ->)%worker_step_errors. exists drained. by rewrite app_nil_r.
  - destruct (drain s); [|done]. unfold drain_step. rewrite app_nil_r.
    destruct (drain_pc s) as [|err]; [destruct (errors s) as [|err rest]; [done|]|];
      intros [= <-]; simpl in *.
    + by exists drained.
    + exists (drained ++ [err]). split; [by rewrite Harr, <- (assoc_L (++))|].
      rewrite kafka_errors_snoc. by apply merged_snoc_r.
Qed.

Ltac sys_fields :=
  cbn [supervisor drain drain_pc errors claims queue_cap queue workers crashed trace
       set_supervisor set_claims set_queue set_workers set_drain crash observe
       at_pc pending claim_pc].

Lemma owed_eq pend pc :
  owed {| pending := pend; claim_pc := pc |}
  = match pc with AtMark m | AtSend m => m :: pend | _ => pend end.
Proof. by destruct pc. Qed.

(** Every message of every claim is marked once or still owed by its
    handler. *)
Lemma exec_accounted acts s a s' :
  mjoin (claimed acts) ≡ₚ marked (trace s) ++ (claims s ≫= owed) →
  exec s a = Some s' →
  mjoin (claimed (acts ++ [a])) ≡ₚ marked (trace s') ++ (claims s' ≫= owed).
Proof.
  unfold exec. intros Hacc. destruct (crashed s); [done|].
  rewrite claimed_snoc, join_app, Hacc.
  destruct a as [r|err|ms|i|j|].
  - destruct (supervisor s); simpl; [|done]. intros [= <-].
    destruct r; simpl; rewrite ?marked_snoc, !app_nil_r; done.
  - destruct (drain s); [|done]. intros [= <-]. simpl. by rewrite !app_nil_r.
  - destruct (supervisor s); simpl; [|done]. intros [= <-]. simpl.
    rewrite bind_app. simpl. rewrite owed_eq, !app_nil_r. by rewrite (assoc_L (++)).
  - unfold claim_step. destruct (claims s !! i) as [c|] eqn:Hi; simpl; [|done].
    rewrite (bind_lookup_split owed _ _ _ Hi). destruct c as [pend pc]. simpl.
    rewrite owed_eq.
    destruct pc as [|m|m|].
    + destruct pend as [|m rest]; intros [= <-]; sys_fields;
        rewrite (bind_insert_split owed _ _ _ _ Hi); unfold at_pc; sys_fields;
        rewrite owed_eq, !app_nil_r; done.
    + case_decide; [|done]. intros [= <-]. sys_fields.
      rewrite marked_snoc, (bind_insert_split owed _ _ _ _ Hi). unfold at_pc. sys_fields.
      by rewrite owed_eq, !app_nil_r.
    + intros [= <-]. sys_fields.
      rewrite marked_snoc, (bind_insert_split owed _ _ _ _ Hi). unfold at_pc. sys_fields.
      rewrite owed_eq, !app_nil_r. solve_Permutation.
    + done.
  - unfold worker_step. destruct (workers s !! j) as [w|]; simpl; [|done].
    destruct (worker_pc w); [destruct (queue s); [done|]; destruct (worker_iter _ _)|];
      intros [= <-]; simpl; by rewrite marked_snoc, !app_nil_r.
  - destruct (drain s); [|done]. unfold drain_step.
    destruct (drain_pc s); [destruct (errors s); [done|]|]; intros [= <-]; simpl;
      by rewrite ?marked_snoc, !app_nil_r.
Qed.

(** ** The order of a claim *)

Lemma in_order_grow tr o ms c : in_order tr ms c → in_order (tr ++ [o]) ms c.
Proof.
  intros (done & Hms & Hh & Hm). exists done. split_and!; [done| |].
  - rewrite handed_off_snoc. by apply sublist_inserts_r.
  - rewrite marked_snoc. by apply sublist_inserts_r.
Qed.

Lemma ordered_grow acts s o : ordered acts s → ordered acts (observe o s).
Proof.
  intros [Hlen Hord]. split; [done|]. intros i ms c Hms Hc. simpl.
  apply in_order_grow. by eapply Hord.
Qed.

Lemma claim_step_ordered acts i s s' :
  ordered acts s → claim_step i s = Some s' → ordered acts s'.
Proof.
  intros [Hlen Hord]. unfold claim_step.
  destruct (claims s !! i) as [[pend pc]|] eqn:Hi; simpl; [|done].
  assert (∀ c' tr',
    (∀ ms, in_order (trace s) ms {| pending := pend; claim_pc := pc |} →
           in_order tr' ms c') →
    (∀ ms c, in_order (trace s) ms c → in_order tr' ms c) →
    ∀ i' ms c, claimed acts !! i' = Some ms → <[i := c']> (claims s) !! i' = Some c →
      in_order tr' ms c) as Hupd.
  { intros c' tr' Hthis Hrest i' ms c Hms [(-> & <- & _)|[_ Hc]]%list_lookup_insert_Some.
    - apply Hthis. by eapply Hord.
    - apply Hrest. by eapply Hord. }
  destruct pc as [|m|m|].
  - destruct pend as [|m rest]; intros [= <-]; (split; [sys_fields; by rewrite length_insert|]);
      sys_fields; apply Hupd; try done; unfold at_pc; sys_fields;
      intros ms (done & Hms & Hh & Hm); exists done; by rewrite owed_eq in *.
  - case_decide; [|done]. intros [= <-]. split; [sys_fields; by rewrite length_insert|].
    sys_fields. apply Hupd; [|intros ms c; apply in_order_grow].
    unfold at_pc. sys_fields. intros ms (done & Hms & Hh & Hm). exists done.
    rewrite owed_eq in *. unfold marking in *. simpl in *. split_and!; [done| |].
    + rewrite handed_off_snoc. rewrite app_nil_r in Hh. by apply sublist_app.
    + rewrite marked_snoc. by apply sublist_inserts_r.
  - intros [= <-]. split; [sys_fields; by rewrite length_insert|].
    sys_fields. apply Hupd; [|intros ms c; apply in_order_grow].
    unfold at_pc. sys_fields. intros ms (done & Hms & Hh & Hm). exists (done ++ [m]).
    rewrite owed_eq in *. unfold marking in *. simpl in *. split_and!.
    + by rewrite <- (assoc_L (++)).
    + rewrite handed_off_snoc, !app_nil_r. done.
    + rewrite marked_snoc. by apply sublist_app.
  - done.
Qed.

Lemma worker_step_ordered acts j s s' :
  ordered acts s → worker_step j s = Some s' → ordered acts s'.
Proof.
  intros Hord. unfold worker_step. destruct (workers s !! j) as [w|]; simpl; [|done].
  destruct (worker_pc w); [destruct (queue s); [done|]; destruct (worker_iter _ _)|];
    intros [= <-]; by apply ordered_grow.
Qed.

Lemma exec_ordered acts s a s' :
  ordered acts s → exec s a = Some s' → ordered (acts ++ [a]) s'.
Proof.
  unfold exec. intros Hord. destruct (crashed s); [done|].
  unfold ordered. rewrite claimed_snoc.
  destruct a as [r|err|ms0|i|j|]; rewrite ?app_nil_r.
  - destruct (supervisor s); simpl; [|done]. intros [= <-].
    destruct r; [by apply (ordered_grow acts)|done].
  - destruct (drain s); [|done]. by intros [= <-].
  - destruct (supervisor s); simpl; [|done]. intros [= <-]. destruct Hord as [Hlen Hord].
    sys_fields. split; [rewrite !length_app; simpl; lia|].
    intros i ms c [[? Hms]|[-> <-]]%lookup_snoc_Some Hc.
    + rewrite lookup_app_l in Hc by lia. eauto.
    + rewrite <- Hlen, list_lookup_middle in Hc by done. injection Hc as <-.
      exists []. rewrite owed_eq. split_and!; [done|apply sublist_nil_l..].
  - by apply claim_step_ordered.
  - by apply worker_step_ordered.
  - destruct (drain s); [|done]. unfold drain_step.
    destruct (drain_pc s); [destruct (errors s); [done|]|]; intros [= <-]; [done|].
    by apply (ordered_grow acts).
Qed.

(** ** One message at a time *)

Lemma run_step s a s1 acts : exec s a = Some s1 → run s (a :: acts) = run s1 acts.
Proof. simpl. by intros ->. Qed.

Lemma exec_take s m rest cs :
  crashed s = false → claims s = {| pending := m :: rest; claim_pc := AtRange |} :: cs →
  exec s (ClaimStep 0)
  = Some (set_claims ({| pending := rest; claim_pc := AtSend m |} :: cs) s).
Proof. intros Hc Hcl. unfold exec, claim_step. by rewrite Hc, Hcl. Qed.

Lemma exec_send s m pend cs :
  crashed s = false → claims s = {| pending := pend; claim_pc := AtSend m |} :: cs →
  length (queue s) < queue_cap s →
  exec s (ClaimStep 0)
  = Some (observe (HandedOff m)
            (set_queue (queue s ++ [m])
               (set_claims ({| pending := pend; claim_pc := AtMark m |} :: cs) s))).
Proof.
  intros Hc Hcl Hroom. unfold exec, claim_step. rewrite Hc, Hcl. simpl.
  by rewrite decide_True.
Qed.

Lemma exec_mark s m pend cs :
  crashed s = false → claims s = {| pending := pend; claim_pc := AtMark m |} :: cs →
  exec s (ClaimStep 0)
  = Some (observe (Marked m)
            (set_claims ({| pending := pend; claim_pc := AtRange |} :: cs) s)).
Proof. intros Hc Hcl. unfold exec, claim_step. by rewrite Hc, Hcl. Qed.

Lemma exec_receive s u out ws m q :
  crashed s = false →
  workers s = {| unmarshal := u; out_chan := out; worker_pc := AtRecv |} :: ws →
  queue s = m :: q →
  exec s (WorkerStep 0)
  = Some match worker_iter u (Value m) with
         | Panic => observe Panicked (crash (set_queue q s))
         | Dropped err _ => observe (DecodeFailed m err) (set_queue q s)
         | Forward i =>
           observe (Decoded m i)
             (set_queue q
                (set_workers
                   ({| unmarshal := u; out_chan := out; worker_pc := AtForward m i |}
                      :: ws) s))
         end.
Proof.
  intros Hc Hw Hq. unfold exec, worker_step. rewrite Hc, Hw, Hq. simpl.
  by destruct (worker_iter u (Value m)).
Qed.

Lemma exec_forward s u out ws m i :
  crashed s = false →
  workers s = {| unmarshal := u; out_chan := out; worker_pc := AtForward m i |} :: ws →
  exec s (WorkerStep 0)
  = Some (observe (Forwarded out m i)
            (set_workers
               ({| unmarshal := u; out_chan := out; worker_pc := AtRecv |} :: ws) s)).
Proof. intros Hc Hw. unfold exec, worker_step. by rewrite Hc, Hw. Qed.

Lemma serve_round f m rest w ws s :
  crashed s = false →
  claims s = [{| pending := m :: rest; claim_pc := AtRange |}] →
  queue s = [] → 0 < queue_cap s →
  workers s = w :: ws → unmarshal w = Some f → worker_pc w = AtRecv →
  ∃ s', run s (serve f m) = Some s' ∧
    crashed s' = false ∧
    claims s' = [{| pending := rest; claim_pc := AtRange |}] ∧
    queue s' = [] ∧ queue_cap s' = queue_cap s ∧ workers s' = workers s ∧
    trace s' = trace s ++ served f (out_chan w) m.
Proof.
  destruct w as [u out pc]. cbn [unmarshal worker_pc out_chan].
  intros Hc Hcl Hq Hcap Hw -> ->. unfold serve, served. cbn [app].
  rewrite (run_step _ _ _ _ (exec_take _ _ _ _ Hc Hcl)).
  erewrite run_step; [|apply exec_send; sys_fields; [done|done|by rewrite Hq]].
  erewrite run_step; [|by apply exec_mark].
  erewrite run_step; [|apply exec_receive; sys_fields; [done|done|by rewrite Hq]].
  unfold worker_iter. destruct (f (Value m)) as [i [err|]]; cbn [snd].
  - eexists. split; [done|]. sys_fields. rewrite <- !(assoc_L (++)). by split_and!.
  - erewrite run_step; [|by apply exec_forward].
    eexists. split; [done|]. sys_fields. rewrite <- !(assoc_L (++)). by split_and!.
Qed.

Lemma serve_all f ms : ∀ w ws s,
  crashed s = false →
  claims s = [{| pending := ms; claim_pc := AtRange |}] →
  queue s = [] → 0 < queue_cap s →
  workers s = w :: ws → unmarshal w = Some f → worker_pc w = AtRecv →
  ∃ s', run s (ms ≫= serve f) = Some s' ∧
    crashed s' = false ∧
    claims s' = [{| pending := []; claim_pc := AtRange |}] ∧
    queue s' = [] ∧ workers s' = workers s ∧
    trace s' = trace s ++ (ms ≫= served f (out_chan w)).
Proof.
  induction ms as [|m ms IH]; intros w ws s Hc Hcl Hq Hcap Hw Hu Hpc.
  - exists s. simpl. rewrite app_nil_r. by split_and!.
  - destruct (serve_round f m ms w ws s Hc Hcl Hq Hcap Hw Hu Hpc)
      as (s1 & Hrun1 & Hc1 & Hcl1 & Hq1 & Hcap1 & Hw1 & Ht1).
    destruct (IH w ws s1) as (s2 & Hrun2 & Hc2 & Hcl2 & Hq2 & Hw2 & Ht2);
      [done..|lia|congruence|done|done|].
    exists s2. split_and!; [|done..|congruence|].
    + change ((m :: ms) ≫= serve f) with (serve f m ++ (ms ≫= serve f)).
      rewrite run_app, Hrun1. done.
    + rewrite Ht2, Ht1, <- (assoc_L (++)). done.
Qed.

Lemma served_marked f out ms : marked (ms ≫= served f out) = ms.
Proof.
  induction ms as [|m ms IH]; [done|].
  change ((m :: ms) ≫= served f out) with (served f out m ++ (ms ≫= served f out)).
  unfold marked in *. rewrite omap_app, IH. unfold served.
  by destruct (f (Value m)) as [i [err|]].
Qed.

Lemma served_handed_off f out ms : handed_off (ms ≫= served f out) = ms.
Proof.
  induction ms as [|m ms IH]; [done|].
  change ((m :: ms) ≫= served f out) with (served f out m ++ (ms ≫= served f out)).
  unfold handed_off in *. rewrite omap_app, IH. unfold served.
  by destruct (f (Value m)) as [i [err|]].
Qed.

Lemma served_sent f out ms :
  sent (ms ≫= served f out) = pair out <$> forwards (worker (Some f) (Value <$> ms)).
Proof.
  induction ms as [|m ms IH]; [done|].
  change ((m :: ms) ≫= served f out) with (served f out m ++ (ms ≫= served f out)).
  rewrite fmap_cons, worker_cons, forwards_cons. unfold sent in *.
  rewrite omap_app, IH. unfold served, worker_iter.
  by destruct (f (Value m)) as [i [err|]].
Qed.

Lemma served_dropped f out ms :
  dropped (ms ≫= served f out) = drops (worker (Some f) (Value <$> ms)).
Proof.
  induction ms as [|m ms IH]; [done|].
  change ((m :: ms) ≫= served f out) with (served f out m ++ (ms ≫= served f out)).
  rewrite fmap_cons, worker_cons. unfold dropped, drops in *.
  rewrite omap_app, IH. unfold served, worker_iter.
  by destruct (f (Value m)) as [i [err|]].
Qed.

(** ** Without workers *)

Lemma unmanned_grow s o :
  match o with
  | Decoded _ _ | DecodeFailed _ _ | Forwarded _ _ _ | Panicked => False
  | _ => True
  end →
  unmanned s → unmanned (observe o s).
Proof.
  intros Ho (Hw & Hc & Hf & Hr & Hs). unfold unmanned. simpl.
  rewrite forwarded_snoc, rejected_snoc, sent_snoc, Hf, Hr, Hs.
  by destruct o.
Qed.

Lemma exec_unmanned s a s' : unmanned s → exec s a = Some s' → unmanned s'.
Proof.
  unfold exec. intros Hun. destruct (crashed s); [done|].
  destruct a as [r|err|ms|i|j|].
  - destruct (supervisor s); simpl; [|done]. intros [= <-].
    destruct r; [by apply unmanned_grow|done].
  - destruct (drain s); [|done]. by intros [= <-].
  - destruct (supervisor s); simpl; [|done]. by intros [= <-].
  - unfold claim_step. destruct (claims s !! i) as [c|]; simpl; [|done].
    destruct (claim_pc c); [destruct (pending c)|case_decide| |]; try done;
      intros [= <-]; try done; by apply unmanned_grow.
  - unfold worker_step. destruct Hun as (-> & _). done.
  - destruct (drain s); [|done]. unfold drain_step.
    destruct (drain_pc s); [destruct (errors s); [done|]|]; intros [= <-]; [done|].
    by apply unmanned_grow.
Qed.

Lemma drops_cons o os :
  drops (o :: os) =
  match o with Dropped err b => (err, b) :: drops os | _ => drops os end.
Proof. by destruct o. Qed.

(** ** The draining goroutine left to run *)

Lemma exec_drain_receive s err rest :
  crashed s = false → drain s = true → drain_pc s = AtErrors → errors s = err :: rest →
  exec s DrainStep = Some (set_drain (AtLog err) rest s).
Proof. intros Hl Hd Hpc He. unfold exec, drain_step. by rewrite Hl, Hd, Hpc, He. Qed.

Lemma exec_drain_log s err :
  crashed s = false → drain s = true → drain_pc s = AtLog err →
  exec s DrainStep = Some (observe (LoggedKafka err) (set_drain AtErrors (errors s) s)).
Proof. intros Hl Hd Hpc. unfold exec, drain_step. by rewrite Hl, Hd, Hpc. Qed.

(** From its receive, the draining goroutine logs all that the channel
    holds, in the order of the channel, in two steps for each error. *)
Lemma drain_channel errs : ∀ s,
  crashed s = false → drain s = true → drain_pc s = AtErrors → errors s = errs →
  ∃ s', run s (replicate (2 * length errs) DrainStep) = Some s' ∧
    kafka_errors (trace s') = kafka_errors (trace s) ++ errs ∧
    drain_pc s' = AtErrors ∧ errors s' = [] ∧
    claims s' = claims s ∧ queue s' = queue s ∧ workers s' = workers s ∧
    supervisor s' = supervisor s.
Proof.
  induction errs as [|err rest IH]; intros s Hl Hd Hpc He.
  - exists s. rewrite app_nil_r. by split_and!.
  - replace (2 * length (err :: rest)) with (S (S (2 * length rest))) by (simpl; lia).
    cbn [replicate].
    rewrite (run_step _ _ _ _ (exec_drain_receive s err rest Hl Hd Hpc He)).
    erewrite run_step by (by apply exec_drain_log).
    destruct (IH (observe (LoggedKafka err)
                    (set_drain AtErrors (errors (set_drain (AtLog err) rest s))
                       (set_drain (AtLog err) rest s))))
      as (s' & Hrun & Hlog & ? & ? & ? & ? & ? & ?); [done..|].
    exists s'. split; [done|]. split_and!; try done.
    rewrite Hlog. cbn [trace observe set_drain]. rewrite kafka_errors_snoc.
    by rewrite <- (assoc_L (++)).
Qed.

(** ** Properties *)

(** The registry of decoders: [getUnmarshal] knows the names json, spb and
    pb and no other, the empty name included, and the decoder of each name
    returns the record of its format together with the error of the
    underlying decoder. *)
Theorem getUnmarshal_registry ser :
  (is_Some (getUnmarshal ser) ↔ ser = "json" ∨ ser = "spb" ∨ ser = "pb") ∧
  getUnmarshal "" = None ∧
  (∀ f b, getUnmarshal ser = Some f →
     (ser = "json" ∧ f b = (RMap (json_Unmarshal b).1, (json_Unmarshal b).2)) ∨
     (ser = "spb" ∧
      f b = (RFieldsSPB (proto_Unmarshal_FieldsSPB b).1, (proto_Unmarshal_FieldsSPB b).2)) ∨
     (ser = "pb" ∧
      f b = (RFields (proto_Unmarshal_Fields b).1, (proto_Unmarshal_Fields b).2))).
Proof.
  split_and!; [apply getUnmarshal_registered|done|].
  intros f b. unfold getUnmarshal.
  destruct (String.eqb_spec ser "json") as [->|_].
  { intros [= <-]. left. split; [done|]. by destruct (json_Unmarshal b). }
  destruct (String.eqb_spec ser "spb") as [->|_].
  { intros [= <-]. right. left. split; [done|]. by destruct (proto_Unmarshal_FieldsSPB b). }
  destruct (String.eqb_spec ser "pb") as [->|_]; [|done].
  intros [= <-]. right. right. split; [done|]. by destruct (proto_Unmarshal_Fields b).
Qed.

(** [Start] fails exactly when the sarama configuration is refused or the
    group cannot be opened on the resolved brokers, and it returns the error
    of the one that failed, as it is. *)
Theorem Start_returns_the_error_of_the_session ctx name ser out err :
  (Start ctx name ser out).1 = Some err ↔
  saramaConfig (resolved ctx name) = Fail err ∨
  ∃ sConfig, saramaConfig (resolved ctx name) = Ok sConfig ∧
    sarama_dial (Brokers (resolved ctx name)) "tcpdog" sConfig = Some err.
Proof.
  unfold Start. fold (resolved ctx name).
  unfold newConsumerGroup, sarama_NewConsumerGroup, mbind, result_bind, mret, result_ret.
  destruct (saramaConfig (resolved ctx name)) as [sConfig|e]; simpl.
  - destruct (sarama_dial _ _ _) as [e|] eqn:Hdial; simpl; split.
    + intros [= ->]. right. by exists sConfig.
    + intros [[=]|(sc & [= <-] & He)]. congruence.
    + done.
    + intros [[=]|(sc & [= <-] & He)]. congruence.
  - split; [intros [= ->]; by left|]. by intros [[= ->]|(sc & [=] & _)].
Qed.

(** The worker loop splits its stream: the records it sends are the payloads
    that decode, in the order of the stream, the lines it logs are the
    payloads that do not, in that order too, and every payload is one or the
    other; with the nil decoder it sends nothing at all. *)
Theorem worker_partitions_the_stream f bs :
  forwards (worker (Some f) bs)
    = omap (λ b, match f b with (i, None) => Some i | _ => None end) bs ∧
  drops (worker (Some f) bs)
    = omap (λ b, match f b with (_, Some err) => Some (err, b) | _ => None end) bs ∧
  length (forwards (worker (Some f) bs)) + length (drops (worker (Some f) bs)) = length bs ∧
  forwards (worker None bs) = [].
Proof.
  split_and!.
  - induction bs as [|b bs IH]; [done|]. rewrite worker_cons, forwards_cons. simpl.
    unfold worker_iter. destruct (f b) as [i [err|]]; by rewrite IH.
  - induction bs as [|b bs IH]; [done|]. rewrite worker_cons, drops_cons. simpl.
    unfold worker_iter. destruct (f b) as [i [err|]]; by rewrite IH.
  - induction bs as [|b bs IH]; [done|]. rewrite worker_cons, forwards_cons, drops_cons.
    unfold worker_iter. destruct (f b) as [i [err|]]; simpl; lia.
  - by destruct bs.
Qed.

(** With a registered format no worker ever panics: whatever arrives and
    however the goroutines are scheduled, the process has not crashed. *)
Theorem registered_format_never_panics ctx name ser out cg acts s :
  newConsumerGroup (resolved ctx name) = Ok cg →
  is_Some (getUnmarshal ser) →
  run (spawn (Start ctx name ser out).2) acts = Some s →
  crashed s = false.
Proof.
  intros Hcg Hreg Hrun.
  apply (run_invariant (decoding (getUnmarshal ser) out) _ _ _
           (exec_decoding _ _) (spawn_Start_decoding _ _ _ _ _ Hcg) Hrun).
  exact Hreg.
Qed.

(** Nothing handed to the decode queue is lost or duplicated: while the
    process has not crashed, the payloads handed off are, counted with
    multiplicity, those forwarded, those dropped, those a worker holds and
    those still in the queue. *)
Theorem handed_off_payloads_are_conserved tasks acts s :
  run (spawn tasks) acts = Some s → crashed s = false →
  handed_off (trace s)
  ≡ₚ forwarded (trace s) ++ rejected (trace s) ++ held (workers s) ++ queue s.
Proof.
  intros Hrun.
  apply (run_invariant conserved _ _ _ exec_conserved
           (fresh_conserved _ (spawn_fresh tasks)) Hrun).
Qed.

(** The decode queue of a started consumer never holds more than one
    payload, the number of workers stays the configured one, and the
    messages handed off, hence those marked, but neither forwarded nor
    dropped yet never exceed the number of workers plus one. *)
Theorem in_flight_is_bounded ctx name ser out cg acts s :
  newConsumerGroup (resolved ctx name) = Ok cg →
  run (spawn (Start ctx name ser out).2) acts = Some s →
  length (queue s) ≤ 1 ∧
  length (workers s) = Z.to_nat (Workers (resolved ctx name)) ∧
  length (marked (trace s)) ≤ length (handed_off (trace s)) ∧
  (crashed s = false →
   length (handed_off (trace s))
   ≤ length (forwarded (trace s)) + length (rejected (trace s))
     + Z.to_nat (Workers (resolved ctx name)) + 1).
Proof.
  intros Hcg Hrun.
  pose proof (run_frame _ _ _ Hrun) as (Hcap & Hlen & _).
  rewrite (spawn_Start _ _ _ _ _ Hcg) in Hcap, Hlen. simpl in Hcap, Hlen.
  rewrite length_replicate in Hlen.
  assert (bounded s) as Hb.
  { apply (run_invariant bounded _ _ _ exec_bounded) in Hrun; [done|].
    rewrite (spawn_Start _ _ _ _ _ Hcg). unfold bounded. simpl. lia. }
  unfold bounded in Hb. rewrite Hcap in Hb. split_and!; [done..| |].
  - pose proof (run_balanced _ _ _ Hrun) as Hbal. unfold balanced in Hbal.
    rewrite Hbal, length_app. lia.
  - intros Hlive.
    pose proof (run_invariant conserved _ _ _ exec_conserved
                  (fresh_conserved _ (spawn_fresh _)) Hrun Hlive) as Hcons.
    rewrite Hcons, !length_app. pose proof (held_length (workers s)). lia.
Qed.

(** Whatever a started consumer sends goes to the output queue it was given
    and is the record that the decoder of its format returns, without error,
    for the payload of a message that was handed off; and whatever it drops
    is a payload for which that decoder returns the error logged. *)
Theorem forwarded_records_are_decodes ctx name ser out cg acts s :
  newConsumerGroup (resolved ctx name) = Ok cg →
  run (spawn (Start ctx name ser out).2) acts = Some s →
  (∀ o m i, Forwarded o m i ∈ trace s →
     o = out ∧ m ∈ handed_off (trace s) ∧
     ∃ f, getUnmarshal ser = Some f ∧ f (Value m) = (i, None)) ∧
  (∀ m err, DecodeFailed m err ∈ trace s →
     m ∈ handed_off (trace s) ∧
     ∃ f i, getUnmarshal ser = Some f ∧ f (Value m) = (i, Some err)).
Proof.
  intros Hcg Hrun.
  pose proof (run_invariant (decoding (getUnmarshal ser) out) _ _ _
                (exec_decoding _ _) (spawn_Start_decoding _ _ _ _ _ Hcg) Hrun)
    as (_ & Hf & Hd & _).
  pose proof (run_traced _ _ _ Hrun) as (_ & _ & Ht).
  split.
  - intros o m i Hin. destruct (Hf o m i Hin) as [-> ?]. split_and!; [done| |done].
    by apply (Ht (Forwarded out m i)).
  - intros m err Hin. split; [|by apply Hd]. by apply (Ht (DecodeFailed m err)).
Qed.

(** A consumer configured with no worker, or with a negative number of them,
    delivers nothing: it sends nothing on the output queue, and it hands
    off and marks one message at most, which then stays in the queue. *)
Theorem no_worker_no_delivery ctx name ser out cg acts s :
  (Workers (resolved ctx name) ≤ 0)%Z →
  newConsumerGroup (resolved ctx name) = Ok cg →
  run (spawn (Start ctx name ser out).2) acts = Some s →
  sent (trace s) = [] ∧ crashed s = false ∧
  handed_off (trace s) = queue s ∧
  length (handed_off (trace s)) ≤ 1 ∧ length (marked (trace s)) ≤ 1.
Proof.
  intros Hw Hcg Hrun.
  assert (unmanned s) as (Hws & Hlive & Hf & Hr & Hs).
  { apply (run_invariant unmanned _ _ _ exec_unmanned) in Hrun; [done|].
    rewrite (spawn_Start _ _ _ _ _ Hcg). unfold unmanned. simpl.
    by replace (Z.to_nat (Workers (resolved ctx name))) with 0%nat by lia. }
  pose proof (run_invariant conserved _ _ _ exec_conserved
                (fresh_conserved _ (spawn_fresh _)) Hrun Hlive) as Hcons.
  rewrite Hf, Hr, Hws in Hcons. simpl in Hcons.
  assert (bounded s) as Hb.
  { apply (run_invariant bounded _ _ _ exec_bounded) in Hrun; [done|].
    rewrite (spawn_Start _ _ _ _ _ Hcg). unfold bounded. simpl. lia. }
  pose proof (run_frame _ _ _ Hrun) as (Hcap & _).
  rewrite (spawn_Start _ _ _ _ _ Hcg) in Hcap. simpl in Hcap.
  unfold bounded in Hb. rewrite Hcap in Hb.
  assert (length (handed_off (trace s)) ≤ 1) as Hh by (by rewrite Hcons).
  pose proof (run_balanced _ _ _ Hrun) as Hbal. unfold balanced in Hbal.
  split_and!; [done..| |done|].
  - destruct (handed_off (trace s)) as [|m [|m' l]] eqn:Hho; simpl in Hh; [| |lia].
    + symmetry in Hcons. by apply Permutation_nil_r in Hcons.
    + by apply Permutation_singleton_l in Hcons.
  - rewrite Hbal, length_app in Hh. lia.
Qed.

(** Each call of [ConsumeClaim] works through its claim in order: it has
    taken a prefix of the claim's messages, and the messages it has handed
    off and those it has marked appear in the trace in the order of the
    claim. *)
Theorem claims_are_handled_in_order tasks acts s :
  run (spawn tasks) acts = Some s →
  length (claims s) = length (claimed acts) ∧
  ∀ i ms c, claimed acts !! i = Some ms → claims s !! i = Some c →
    ∃ done,
      ms = done ++ owed c ∧
      done ++ marking c `sublist_of` handed_off (trace s) ∧
      done `sublist_of` marked (trace s).
Proof.
  intros Hrun. apply (run_history ordered _ _ _) in Hrun; [done| |].
  - pose proof (spawn_fresh tasks) as (_ & Hcl & _). split; [by rewrite Hcl|].
    intros i ms c Hms. by destruct i.
  - intros acts' s1 a s2. apply exec_ordered.
Qed.

(** The messages marked are messages the session delivered, each marked once
    at most: those of all claims are, counted with multiplicity, the marked
    ones and those their handlers still owe. *)
Theorem delivered_messages_are_marked_once tasks acts s :
  run (spawn tasks) acts = Some s →
  mjoin (claimed acts) ≡ₚ marked (trace s) ++ (claims s ≫= owed) ∧
  marked (trace s) ⊆+ mjoin (claimed acts).
Proof.
  intros Hrun.
  assert (mjoin (claimed acts) ≡ₚ marked (trace s) ++ (claims s ≫= owed)) as Hacc.
  { apply (run_history (λ acts s,
             mjoin (claimed acts) ≡ₚ marked (trace s) ++ (claims s ≫= owed)) _ _ _)
      in Hrun; [done| |].
    - pose proof (spawn_fresh tasks) as (-> & -> & _). done.
    - intros acts' s1 a s2. apply exec_accounted. }
  split; [done|]. rewrite Hacc. by apply submseteq_inserts_r.
Qed.

(** The errors that the session sends on [group.Errors()] are logged by the
    draining goroutine one at a time in the order of the channel: after any
    run, those sent are those it has logged, then the one it has received
    and not logged yet, then those still in the channel. The lines
    [logger.Error("kafka", ...)] interleave what the supervising goroutine
    has logged with what the draining goroutine has logged, each in its own
    order, with no line lost or repeated; the order between the two is not
    fixed. And left to run, the draining goroutine logs all that is on its
    way, whatever the handlers and the workers are blocked on, and touches
    neither them nor the queue nor the supervisor. *)
Theorem session_errors_are_drained_in_order ctx name ser out cg acts s :
  newConsumerGroup (resolved ctx name) = Ok cg →
  run (spawn (Start ctx name ser out).2) acts = Some s →
  (∃ st drained,
     supervisor s = Some st ∧
     arrived acts = drained ++ logging (drain_pc s) ++ errors s ∧
     merged (sup_logged st) drained (kafka_errors (trace s))) ∧
  (crashed s = false → ∃ s',
     run s (flush s) = Some s' ∧
     kafka_errors (trace s') = kafka_errors (trace s) ++ logging (drain_pc s) ++ errors s ∧
     drain_pc s' = AtErrors ∧ errors s' = [] ∧
     claims s' = claims s ∧ queue s' = queue s ∧ workers s' = workers s ∧
     supervisor s' = supervisor s).
Proof.
  intros Hcg Hrun. split.
  - pose proof (run_supervisor _ _ _ _ (spawn_Start_supervisor _ _ ser out _ Hcg) Hrun)
      as Hs.
    apply (run_history in_transit _ _ _) in Hrun.
    + destruct Hrun as (drained & Harr & Hlog). rewrite Hs in Hlog. eauto.
    + rewrite (spawn_Start _ _ _ _ _ Hcg). exists []. split; [done|]. constructor.
    + intros acts' s1 a s2. apply exec_in_transit.
  - intros Hlive. pose proof (run_frame _ _ _ Hrun) as (_ & _ & Hdrain & _).
    rewrite (spawn_Start _ _ _ _ _ Hcg) in Hdrain. simpl in Hdrain.
    unfold flush. destruct (drain_pc s) as [|err] eqn:Hpc.
    + by apply drain_channel.
    + cbn [logging length Nat.add replicate].
      erewrite run_step by (by apply exec_drain_log).
      destruct (drain_channel (errors s)
                  (observe (LoggedKafka err) (set_drain AtErrors (errors s) s)))
        as (s' & Hflush & Hlog & ? & ? & ? & ? & ? & ?); [done..|].
      exists s'. split; [done|]. split_and!; try done.
      rewrite Hlog. cbn [trace observe set_drain]. rewrite kafka_errors_snoc.
      by rewrite <- (assoc_L (++)).
Qed.

(** A stream can always be served to the end: when the consumer has a worker
    and a registered format, the schedule that serves one message at a time
    hands off and marks the messages of a claim in order, sends on the
    output queue exactly what the worker loop sends for their payloads,
    logs exactly what it logs, and ends with the handler returned and the
    queue empty. *)
Theorem stream_is_served_in_turn ctx name ser out cg f ms :
  newConsumerGroup (resolved ctx name) = Ok cg →
  (0 < Workers (resolved ctx name))%Z →
  getUnmarshal ser = Some f →
  ∃ s, run (spawn (Start ctx name ser out).2) (in_turn f ms) = Some s ∧
    crashed s = false ∧ queue s = [] ∧
    claims s = [{| pending := []; claim_pc := Returned |}] ∧
    handed_off (trace s) = ms ∧ marked (trace s) = ms ∧
    sent (trace s) = pair out <$> forwards (worker (getUnmarshal ser) (Value <$> ms)) ∧
    dropped (trace s) = drops (worker (getUnmarshal ser) (Value <$> ms)).
Proof.
  intros Hcg Hw Hf. rewrite (spawn_Start _ _ _ _ _ Hcg), Hf.
  destruct (Z.to_nat (Workers (resolved ctx name))) as [|n] eqn:Hn; [lia|].
  set (w := {| unmarshal := Some f; out_chan := out; worker_pc := AtRecv |}).
  set (s0 := {| supervisor := Some sup_init; drain := true;
                drain_pc := AtErrors; errors := [];
                claims := [{| pending := ms; claim_pc := AtRange |}];
                queue_cap := 1; queue := []; workers := w :: replicate n w;
                crashed := false; trace := [] |}).
  destruct (serve_all f ms w (replicate n w) s0) as (s1 & Hrun & Hc & Hcl & Hq & Hws & Ht);
    [done|done|done|simpl; lia|done|done|done|].
  destruct s1 as [sup dr dpc errs cs cap q wks cr tr].
  simpl in Hc, Hcl, Hq, Hws, Ht. subst.
  eexists. split.
  - unfold in_turn. simpl. change (set_claims _ _) with s0.
    rewrite run_app, Hrun. simpl. done.
  - simpl. rewrite served_marked, served_handed_off, served_sent.
    split_and!; try done. apply served_dropped.
Qed.

End IngressCoverage.

(** ** Further runs on concrete inputs *)

Section CoverageRuns.
Import kafka.
#[local] Existing Instance sample.broker.
#[local] Existing Instance sample.wire.

Lemma sample_session_unmanned :
  newConsumerGroup (resolved sample.ctx_unmanned "kafka") = Ok sample.session_unmanned.
Proof. vm_compute. reflexivity. Qed.

Lemma sample_busy_runs :
  run (spawn (Start sample.ctx "kafka" "json" "sink").2) sample.busy
  = Some (sample.outcome (Start sample.ctx "kafka" "json" "sink").2 sample.busy).
Proof. vm_compute. reflexivity. Qed.

(** Where the schedule [sample.busy] ends. *)
Example sample_busy_outcome :
  let s := sample.outcome (Start sample.ctx "kafka" "json" "sink").2 sample.busy in
  handed_off (trace s) = [sample.msg 0 "{a}"; sample.msg 5 "{c}"; sample.msg 1 ""] ∧
  marked (trace s) = [sample.msg 0 "{a}"] ∧
  at_mark (claims s) = [sample.msg 1 ""; sample.msg 5 "{c}"] ∧
  forwarded (trace s) = [sample.msg 0 "{a}"] ∧
  rejected (trace s) = [sample.msg 1 ""] ∧
  held (workers s) = [sample.msg 5 "{c}"] ∧
  queue s = [] ∧ crashed s = false ∧
  kafka_errors (trace s) = [Err "rebalance"; Err "broker down"].
Proof. split_and!; vm_compute; reflexivity. Qed.

Lemma registered_format_never_panics_witness :
  crashed (sample.outcome (Start sample.ctx "kafka" "json" "sink").2 sample.busy) = false.
Proof.
  apply (registered_format_never_panics sample.ctx "kafka" "json" "sink" sample.session
           sample.busy _ sample_session); [by eexists|exact sample_busy_runs].
Defined.

Lemma handed_off_payloads_are_conserved_witness :
  let s := sample.outcome (Start sample.ctx "kafka" "json" "sink").2 sample.busy in
  handed_off (trace s)
  ≡ₚ forwarded (trace s) ++ rejected (trace s) ++ held (workers s) ++ queue s.
Proof.
  apply (handed_off_payloads_are_conserved _ sample.busy _ sample_busy_runs).
  vm_compute. reflexivity.
Defined.

Lemma in_flight_is_bounded_witness :
  let s := sample.outcome (Start sample.ctx "kafka" "json" "sink").2 sample.busy in
  length (queue s) ≤ 1 ∧
  length (workers s) = Z.to_nat (Workers (resolved sample.ctx "kafka")) ∧
  length (marked (trace s)) ≤ length (handed_off (trace s)) ∧
  (crashed s = false →
   length (handed_off (trace s))
   ≤ length (forwarded (trace s)) + length (rejected (trace s))
     + Z.to_nat (Workers (resolved sample.ctx "kafka")) + 1).
Proof.
  exact (in_flight_is_bounded sample.ctx "kafka" "json" "sink" sample.session
           sample.busy _ sample_session sample_busy_runs).
Defined.

Lemma forwarded_records_are_decodes_witness :
  let s := sample.outcome (Start sample.ctx "kafka" "json" "sink").2 sample.busy in
  (∀ o m i, Forwarded o m i ∈ trace s →
     o = "sink" ∧ m ∈ handed_off (trace s) ∧
     ∃ f, getUnmarshal "json" = Some f ∧ f (Value m) = (i, None)) ∧
  (∀ m err, DecodeFailed m err ∈ trace s →
     m ∈ handed_off (trace s) ∧
     ∃ f i, getUnmarshal "json" = Some f ∧ f (Value m) = (i, Some err)).
Proof.
  exact (forwarded_records_are_decodes sample.ctx "kafka" "json" "sink" sample.session
           sample.busy _ sample_session sample_busy_runs).
Defined.

Lemma sample_stalled_runs :
  run (spawn (Start sample.ctx_unmanned "kafka" "json" "sink").2) sample.stalled
  = Some (sample.outcome (Start sample.ctx_unmanned "kafka" "json" "sink").2 sample.stalled).
Proof. vm_compute. reflexivity. Qed.

(** Where the schedule [sample.stalled] ends: the first message is marked and
    sits in the queue, and the handler cannot send the second. *)
Example sample_stalled_outcome :
  let s := sample.outcome (Start sample.ctx_unmanned "kafka" "json" "sink").2
             sample.stalled in
  marked (trace s) = [sample.msg 0 "{a}"] ∧
  queue s = [sample.msg 0 "{a}"] ∧
  claim_pc <$> claims s = [AtSend (sample.msg 1 "{b}")] ∧
  exec s (ClaimStep 0) = None.
Proof. split_and!; vm_compute; reflexivity. Qed.

Lemma no_worker_no_delivery_witness :
  let s := sample.outcome (Start sample.ctx_unmanned "kafka" "json" "sink").2
             sample.stalled in
  sent (trace s) = [] ∧ crashed s = false ∧
  handed_off (trace s) = queue s ∧
  length (handed_off (trace s)) ≤ 1 ∧ length (marked (trace s)) ≤ 1.
Proof.
  apply (no_worker_no_delivery sample.ctx_unmanned "kafka" "json" "sink"
           sample.session_unmanned sample.stalled).
  - by vm_compute.
  - exact sample_session_unmanned.
  - exact sample_stalled_runs.
Defined.

Lemma claims_are_handled_in_order_witness :
  let s := sample.outcome (Start sample.ctx "kafka" "json" "sink").2 sample.busy in
  length (claims s) = length (claimed sample.busy) ∧
  ∀ i ms c, claimed sample.busy !! i = Some ms → claims s !! i = Some c →
    ∃ done,
      ms = done ++ owed c ∧
      done ++ marking c `sublist_of` handed_off (trace s) ∧
      done `sublist_of` marked (trace s).
Proof.
  exact (claims_are_handled_in_order _ sample.busy _ sample_busy_runs).
Defined.

Lemma delivered_messages_are_marked_once_witness :
  let s := sample.outcome (Start sample.ctx "kafka" "json" "sink").2 sample.busy in
  mjoin (claimed sample.busy) ≡ₚ marked (trace s) ++ (claims s ≫= owed) ∧
  marked (trace s) ⊆+ mjoin (claimed sample.busy).
Proof.
  exact (delivered_messages_are_marked_once _ sample.busy _ sample_busy_runs).
Defined.

Lemma sample_noisy_runs :
  run (spawn (Start sample.ctx "kafka" "json" "sink").2) sample.noisy
  = Some (sample.outcome (Start sample.ctx "kafka" "json" "sink").2 sample.noisy).
Proof. vm_compute. reflexivity. Qed.

(** Where the schedule [sample.noisy] ends: the error that [Consume]
    returned is logged before the error that reached the process first. *)
Example sample_noisy_outcome :
  let s := sample.outcome (Start sample.ctx "kafka" "json" "sink").2 sample.noisy in
  arrived sample.noisy
    = [Err "broker down"; Err "offset out of range"; Err "request timed out"] ∧
  kafka_errors (trace s) = [Err "rebalance"; Err "broker down"] ∧
  drain_pc s = AtLog (Err "offset out of range") ∧
  errors s = [Err "request timed out"] ∧
  flush s = [DrainStep; DrainStep; DrainStep].
Proof. split_and!; vm_compute; reflexivity. Qed.

Lemma session_errors_are_drained_in_order_witness :
  let s := sample.outcome (Start sample.ctx "kafka" "json" "sink").2 sample.noisy in
  (∃ st drained,
     supervisor s = Some st ∧
     arrived sample.noisy = drained ++ logging (drain_pc s) ++ errors s ∧
     merged (sup_logged st) drained (kafka_errors (trace s))) ∧
  (crashed s = false → ∃ s',
     run s (flush s) = Some s' ∧
     kafka_errors (trace s') = kafka_errors (trace s) ++ logging (drain_pc s) ++ errors s ∧
     drain_pc s' = AtErrors ∧ errors s' = [] ∧
     claims s' = claims s ∧ queue s' = queue s ∧ workers s' = workers s ∧
     supervisor s' = supervisor s).
Proof.
  exact (session_errors_are_drained_in_order sample.ctx "kafka" "json" "sink"
           sample.session sample.noisy _ sample_session sample_noisy_runs).
Defined.

Lemma stream_is_served_in_turn_witness :
  let ms := [sample.msg 0 "{a}"; sample.msg 1 ""; sample.msg 2 "{b}"] in
  let f := λ b, let '(m, err) := json_Unmarshal b in (RMap m, err) in
  ∃ s, run (spawn (Start sample.ctx "kafka" "json" "sink").2) (in_turn f ms) = Some s ∧
    crashed s = false ∧ queue s = [] ∧
    claims s = [{| pending := []; claim_pc := Returned |}] ∧
    handed_off (trace s) = ms ∧ marked (trace s) = ms ∧
    sent (trace s)
      = pair "sink" <$> forwards (worker (getUnmarshal "json") (Value <$> ms)) ∧
    dropped (trace s) = drops (worker (getUnmarshal "json") (Value <$> ms)).
Proof.
  intros ms f.
  apply (stream_is_served_in_turn sample.ctx "kafka" "json" "sink" sample.session f ms
           sample_session); [by vm_compute|reflexivity].
Defined.

End CoverageRuns.
